(** * Redaction engine and output workflow of go-application-framework

    A shallow embedding of
    - [pkg/local_workflows/output_workflow.go] (module [OutputWorkflow]), and
    - the redaction engine that the analytics tests exercise
      ([SanitizeValuesByKey], [SanitizeUsername]; module [Analytics]),
      over a JSON codec (module [Json]).

    Go byte slices and Go strings are both byte sequences; they are modelled
    as [list ascii]. *)

From Stdlib Require Import Ascii String Bool Arith Lia List.
Import ListNotations.

Set Warnings "-register-all".

Local Open Scope list_scope.
Local Open Scope bool_scope.

Abbreviation text := (list ascii).

(** A string literal as a byte sequence. *)
Definition bytes (s : string) : text := list_ascii_of_string s.

(** ** Go's [strings] package, on byte sequences *)

Module Strings.

(** [strings.HasPrefix s p]. *)
Fixpoint has_prefix (p s : text) : bool :=
  match p, s with
  | [], _ => true
  | _ :: _, [] => false
  | a :: p', b :: s' => Ascii.eqb a b && has_prefix p' s'
  end.

(** [strings.Contains s sub]: [sub] occurs in [s] as a contiguous run. *)
Fixpoint contains (sub s : text) : bool :=
  has_prefix sub s ||
  match s with
  | [] => false
  | _ :: s' => contains sub s'
  end.

(** [strings.Count s sub] for a non-empty [sub]: occurrences found by a
    left-to-right scan that resumes after each occurrence.  [skip] is the
    number of bytes of the current occurrence still to pass over. *)
Fixpoint count_from (sub : text) (skip : nat) (s : text) : nat :=
  match s with
  | [] => 0
  | _ :: s' =>
      match skip with
      | S k => count_from sub k s'
      | 0 =>
          if has_prefix sub s
          then S (count_from sub (length sub - 1) s')
          else count_from sub 0 s'
      end
  end.

(** [strings.Count s sub]; for the empty [sub] Go returns the number of
    positions, one more than the length. *)
Definition count (sub s : text) : nat :=
  match sub with
  | [] => S (length s)
  | _ => count_from sub 0 s
  end.

(** [a] occurs in [s]. *)
Definition occurs (a : ascii) (s : text) : bool := existsb (Ascii.eqb a) s.

(** [strings.ReplaceAll s old new] for a non-empty [old], as a left-to-right
    scan that resumes after each occurrence; [skip] is the number of bytes
    of the current occurrence still to pass over. *)
Fixpoint replace_from (old new : text) (skip : nat) (s : text) : text :=
  match s with
  | [] => []
  | a :: s' =>
      match skip with
      | S k => replace_from old new k s'
      | 0 =>
          if has_prefix old s
          then new ++ replace_from old new (length old - 1) s'
          else a :: replace_from old new 0 s'
      end
  end.

(** Every occurrence of [old] replaced by [new]; an empty [old] has no
    occurrence to replace. *)
Definition replace_all (old new s : text) : text :=
  match old with
  | [] => s
  | _ => replace_from old new 0 s
  end.

(** The occurrences a scan for [old] finds, and replaces. *)
Definition occurrences (old s : text) : nat :=
  match old with
  | [] => 0
  | _ => count old s
  end.

(** [strings.Join gaps sep]. *)
Fixpoint join_with (sep : text) (gaps : list text) : text :=
  match gaps with
  | [] => []
  | [g] => g
  | g :: gs => g ++ sep ++ join_with sep gs
  end.

(** The non-empty suffixes of a text. *)
Fixpoint tails (l : text) : list text :=
  match l with
  | [] => []
  | _ :: l' => l :: tails l'
  end.

(** One of the two texts is a prefix of the other. *)
Definition meets (u x : text) : bool := has_prefix u x || has_prefix x u.

(** Somewhere an occurrence of [x] can start at a byte of an occurrence of
    [t]. *)
Definition starts_within (x t : text) : bool :=
  existsb (fun u => meets u x) (tails t).

(** No occurrence of [x] shares a byte with an occurrence of [t], in any
    text. *)
Definition apart (t x : text) : bool :=
  negb (starts_within x t) && negb (starts_within t x).

(** No proper non-empty suffix of [t] is a prefix of it: two occurrences of
    [t] never overlap. *)
Definition unbordered (t : text) : bool :=
  forallb (fun w => negb (has_prefix w t)) (tl (tails t)).

(** Texts made of tokens and, between them, stretches without the token. *)
Definition tokenised (token s : text) : Prop :=
  exists gaps,
    gaps <> [] /\
    Forall (fun g => contains token g = false) gaps /\
    s = join_with token gaps.

(** [strings.ToLower], on the ASCII letters. *)
Definition to_lower (c : ascii) : ascii :=
  let n := nat_of_ascii c in
  if (65 <=? n) && (n <=? 90) then ascii_of_nat (n + 32) else c.

Definition lower (s : text) : text := map to_lower s.

(** *** Lemmas *)

Lemma has_prefix_split p : forall s,
  has_prefix p s = true -> s = p ++ skipn (length p) s.
Proof.
  induction p as [|a p IH]; intros s H; [reflexivity|].
  destruct s as [|b s]; [discriminate|]. simpl in H.
  apply andb_prop in H as [Hab H]. apply Ascii.eqb_eq in Hab. subst b.
  simpl. f_equal. apply IH. assumption.
Qed.

Lemma has_prefix_app p s : has_prefix p (p ++ s) = true.
Proof.
  induction p as [|a p IH]; [reflexivity|]. simpl.
  rewrite Ascii.eqb_refl. exact IH.
Qed.

Lemma has_prefix_length p : forall s,
  has_prefix p s = true -> length p <= length s.
Proof.
  induction p as [|a p IH]; intros s H; [simpl; lia|].
  destruct s as [|b s]; [discriminate|]. simpl in *.
  apply andb_prop in H as [_ H]. apply IH in H. lia.
Qed.

Lemma has_prefix_weaken x : forall g z,
  has_prefix x g = true -> has_prefix x (g ++ z) = true.
Proof.
  induction x as [|h x IH]; intros g z H; [reflexivity|].
  destruct g as [|a g]; [discriminate|]. simpl in *.
  apply andb_prop in H as [-> H]. simpl. auto.
Qed.

(** A prefix of [u ++ y] is a prefix of [u] or has [u] as a prefix. *)
Lemma has_prefix_app_meets x : forall u y,
  has_prefix x (u ++ y) = true -> meets u x = true.
Proof.
  unfold meets. induction x as [|h x IH]; intros u y H.
  - destruct u; reflexivity.
  - destruct u as [|a u]; [reflexivity|]. cbn [app has_prefix] in *.
    apply andb_prop in H as [Hh H]. apply Ascii.eqb_eq in Hh. subst a.
    rewrite Ascii.eqb_refl. cbn [andb]. eapply IH; eauto.
Qed.

(** A prefix of [g ++ w] is a prefix of [g] or goes on into [w]. *)
Lemma has_prefix_app_cases x : forall g w,
  has_prefix x (g ++ w) = true ->
  has_prefix x g = true \/
  exists v, x = g ++ v /\ v <> [] /\ has_prefix v w = true.
Proof.
  induction x as [|h x IH]; intros g w H.
  - left. destruct g; reflexivity.
  - destruct g as [|a g].
    + right. exists (h :: x). repeat split; [discriminate | exact H].
    + cbn [app has_prefix] in *.
      apply andb_prop in H as [Hh H]. rewrite Hh. cbn [andb].
      apply Ascii.eqb_eq in Hh. subst a.
      destruct (IH g w H) as [Hg|(v & -> & Hv & Hw)]; [left; assumption|].
      right. exists v. auto.
Qed.

Lemma tails_app g v : v <> [] -> In v (tails (g ++ v)).
Proof.
  intros Hv. induction g as [|a g IH]; cbn [app tails].
  - destruct v; [contradiction|]. left. reflexivity.
  - right. exact IH.
Qed.

Lemma not_in_app {A} (x : A) l1 l2 :
  ~ In x (l1 ++ l2) -> ~ In x l1 /\ ~ In x l2.
Proof. intros H. split; intros Hin; apply H, in_or_app; auto. Qed.

Lemma not_in_cons_inv {A} (x a : A) l : ~ In x (a :: l) -> a <> x /\ ~ In x l.
Proof. intros H. split; [intros -> | intros Hin]; apply H; simpl; auto. Qed.

Lemma occurs_false a s : occurs a s = false <-> ~ In a s.
Proof.
  unfold occurs. split.
  - intros H Hin. assert (existsb (Ascii.eqb a) s = true); [|congruence].
    apply existsb_exists. exists a. split; [assumption | apply Ascii.eqb_refl].
  - intros H. destruct (existsb (Ascii.eqb a) s) eqn:E; [|reflexivity].
    apply existsb_exists in E as (b & Hb & Hab). apply Ascii.eqb_eq in Hab.
    subst. contradiction.
Qed.

Lemma count_from_skip sub l : forall s,
  count_from sub (length l) (l ++ s) = count_from sub 0 s.
Proof. induction l as [|a l IH]; intros s; simpl; auto. Qed.

Lemma count_token c r s :
  count (c :: r) ((c :: r) ++ s) = S (count (c :: r) s).
Proof.
  unfold count. cbn [app count_from].
  change (has_prefix (c :: r) (c :: r ++ s)) with (has_prefix (c :: r) ((c :: r) ++ s)).
  rewrite has_prefix_app.
  replace (length (c :: r) - 1) with (length r) by (simpl; lia).
  rewrite count_from_skip. reflexivity.
Qed.

Lemma count_other c r a s :
  a <> c -> count (c :: r) (a :: s) = count (c :: r) s.
Proof.
  intros Hne. unfold count. cbn [count_from has_prefix].
  destruct (Ascii.eqb c a) eqn:E; [apply Ascii.eqb_eq in E; congruence|].
  reflexivity.
Qed.

Lemma count_frame c r l s :
  ~ In c l -> count (c :: r) (l ++ s) = count (c :: r) s.
Proof.
  induction l as [|a l IH]; intros H; [reflexivity|].
  cbn [app]. rewrite count_other.
  - apply IH. intros Hin. apply H. right. exact Hin.
  - intros ->. apply H. left. reflexivity.
Qed.

Lemma contains_prefix x s : has_prefix x s = true -> contains x s = true.
Proof. intros H. destruct s; simpl in *; rewrite H; reflexivity. Qed.

Lemma contains_app_r x a : forall b,
  contains x b = true -> contains x (a ++ b) = true.
Proof.
  induction a as [|c a IH]; intros b H; [exact H|].
  cbn [app contains]. rewrite IH by assumption. apply orb_true_r.
Qed.

Lemma contains_app_l x : forall a b,
  contains x a = true -> contains x (a ++ b) = true.
Proof.
  induction a as [|c a IH]; intros b H.
  - cbn [contains] in H. rewrite orb_false_r in H.
    apply contains_prefix. apply (has_prefix_weaken x [] b H).
  - cbn [contains] in H. apply orb_prop in H as [H|H].
    + apply contains_prefix, has_prefix_weaken, H.
    + cbn [app contains]. rewrite IH by assumption. apply orb_true_r.
Qed.


Lemma contains_suffix x l : forall s,
  contains x (l ++ s) = false -> contains x s = false.
Proof.
  intros s H. destruct (contains x s) eqn:E; [|reflexivity].
  rewrite (contains_app_r x l s E) in H. discriminate.
Qed.

Lemma contains_cons_false x a s :
  contains x (a :: s) = false ->
  has_prefix x (a :: s) = false /\ contains x s = false.
Proof. cbn [contains]. apply orb_false_elim. Qed.

Section Scan.
Variables (old new : text).
Hypothesis old_nonempty : old <> [].

Lemma replace_from_skip l : forall s,
  replace_from old new (length l) (l ++ s) = replace_from old new 0 s.
Proof. induction l as [|a l IH]; intros s; simpl; auto. Qed.

Lemma replace_all_nil : replace_all old new [] = [].
Proof. destruct old; reflexivity. Qed.

Lemma replace_all_match rest :
  replace_all old new (old ++ rest) = new ++ replace_all old new rest.
Proof.
  destruct old as [|b old'] eqn:E; [contradiction|]. rewrite <- E.
  assert (R : replace_all old new = replace_from old new 0)
    by (rewrite E; reflexivity).
  rewrite R. rewrite E at 2. cbn [app replace_from].
  change (b :: old' ++ rest) with ((b :: old') ++ rest). rewrite <- E.
  rewrite has_prefix_app.
  replace (length old - 1) with (length old') by (rewrite E; simpl; lia).
  rewrite replace_from_skip. reflexivity.
Qed.

Lemma replace_all_other a s :
  has_prefix old (a :: s) = false ->
  replace_all old new (a :: s) = a :: replace_all old new s.
Proof.
  intros H. unfold replace_all. destruct old; [contradiction|].
  cbn [replace_from]. rewrite H. reflexivity.
Qed.

Lemma occurrences_nil : occurrences old [] = 0.
Proof. destruct old; reflexivity. Qed.

Lemma occurrences_match rest :
  occurrences old (old ++ rest) = S (occurrences old rest).
Proof. destruct old; [contradiction|]. apply count_token. Qed.

Lemma occurrences_other a s :
  has_prefix old (a :: s) = false -> occurrences old (a :: s) = occurrences old s.
Proof.
  intros H. unfold occurrences, count. destruct old; [contradiction|].
  cbn [count_from]. rewrite H. reflexivity.
Qed.

(** Induction along the scan for [old]. *)
Lemma scan_ind (P : text -> Prop) :
  P [] ->
  (forall rest, P rest -> P (old ++ rest)) ->
  (forall a s, has_prefix old (a :: s) = false -> P s -> P (a :: s)) ->
  forall s, P s.
Proof.
  intros Hnil Hmatch Hother s.
  remember (length s) as n eqn:Hn. revert s Hn.
  induction n as [n IH] using lt_wf_ind. intros s Hn.
  destruct s as [|a s]; [exact Hnil|].
  destruct (has_prefix old (a :: s)) eqn:E.
  - apply has_prefix_split in E. rewrite E. apply Hmatch.
    apply (IH (length (skipn (length old) (a :: s)))); [|reflexivity].
    subst n. rewrite length_skipn.
    destruct old; [contradiction|]. simpl. lia.
  - apply Hother; [exact E|]. apply (IH (length s)); [|reflexivity].
    subst n. simpl. lia.
Qed.

End Scan.

Lemma join_with_head sep a g gs :
  join_with sep ((a :: g) :: gs) = a :: join_with sep (g :: gs).
Proof. destruct gs; reflexivity. Qed.

Lemma join_with_empty sep g gs :
  join_with sep ([] :: g :: gs) = sep ++ join_with sep (g :: gs).
Proof. reflexivity. Qed.

Lemma join_with_cons sep g g' gs :
  join_with sep (g :: g' :: gs) = g ++ sep ++ join_with sep (g' :: gs).
Proof. reflexivity. Qed.

Lemma join_with_app sep gs1 gs2 :
  gs1 <> [] -> gs2 <> [] ->
  join_with sep (gs1 ++ gs2) = join_with sep gs1 ++ sep ++ join_with sep gs2.
Proof.
  intros H1 H2. induction gs1 as [|g gs1 IH]; [contradiction|].
  destruct gs1 as [|g' gs1].
  - destruct gs2; [contradiction | reflexivity].
  - cbn [app] in *. rewrite 2 join_with_cons. rewrite IH by discriminate.
    rewrite <- !app_assoc. reflexivity.
Qed.

(** One scan replaces disjoint occurrences of [old], one token each, and
    leaves the text between them as it is. *)
Lemma replace_all_shape old new s :
  old <> [] ->
  exists gaps,
    length gaps = S (occurrences old s) /\
    s = join_with old gaps /\
    replace_all old new s = join_with new gaps.
Proof.
  intros Hold.
  induction s as [|rest (gaps & Hlen & Hs & Hr)|a s Ha (gaps & Hlen & Hs & Hr)]
    using (scan_ind old Hold).
  - exists [[]]. rewrite occurrences_nil, replace_all_nil by assumption. auto.
  - exists ([] :: gaps). rewrite occurrences_match, replace_all_match by assumption.
    destruct gaps as [|g gs]; [discriminate|].
    rewrite 2 join_with_empty. cbn [length] in *.
    repeat split; congruence.
  - destruct gaps as [|g gs]; [discriminate|].
    exists ((a :: g) :: gs).
    rewrite occurrences_other, replace_all_other by assumption.
    rewrite 2 join_with_head. cbn [length] in *. repeat split; congruence.
Qed.

(** No gap of a text without [x] has [x]. *)
Lemma join_with_free x sep gaps :
  contains x (join_with sep gaps) = false ->
  Forall (fun g => contains x g = false) gaps.
Proof.
  induction gaps as [|g gaps IH]; intros H; [constructor|].
  destruct gaps as [|g' gaps]; [repeat constructor; assumption|].
  rewrite join_with_cons in H. constructor.
  - destruct (contains x g) eqn:E; [|reflexivity].
    rewrite (contains_app_l x g _ E) in H. discriminate.
  - apply IH. eapply contains_suffix. eapply contains_suffix. exact H.
Qed.

Section ScanWithToken.
Variables (token old : text).
Hypothesis old_nonempty : old <> [].
Hypothesis token_apart : apart token old = true.

Lemma old_not_within_token : starts_within old token = false.
Proof.
  unfold apart in token_apart. apply andb_prop in token_apart as [H _].
  destruct (starts_within old token); [discriminate | reflexivity].
Qed.

Lemma token_not_within_old : starts_within token old = false.
Proof.
  unfold apart in token_apart. apply andb_prop in token_apart as [_ H].
  destruct (starts_within token old); [discriminate | reflexivity].
Qed.

(** No occurrence of [x] starts at a byte of [l] in [l ++ y] when [x] does
    not start within [l]. *)
Lemma no_start_within x l u y :
  starts_within x l = false -> In u (tails l) -> has_prefix x (u ++ y) = false.
Proof.
  intros H Hu. destruct (has_prefix x (u ++ y)) eqn:E; [|reflexivity].
  apply has_prefix_app_meets in E.
  assert (starts_within x l = true); [|congruence].
  apply existsb_exists. exists u. auto.
Qed.

(** The scan steps over a stretch in which no occurrence of [old] starts. *)
Lemma replace_all_frame new l : forall s,
  (forall u, In u (tails l) -> has_prefix old (u ++ s) = false) ->
  replace_all old new (l ++ s) = l ++ replace_all old new s.
Proof.
  induction l as [|a l IH]; intros s H; [reflexivity|].
  cbn [app]. rewrite replace_all_other; try assumption.
  - f_equal. apply IH. intros u Hu. apply H. right. exact Hu.
  - apply (H (a :: l)). left. reflexivity.
Qed.

Lemma occurrences_frame l : forall s,
  (forall u, In u (tails l) -> has_prefix old (u ++ s) = false) ->
  occurrences old (l ++ s) = occurrences old s.
Proof.
  induction l as [|a l IH]; intros s H; [reflexivity|].
  cbn [app]. rewrite occurrences_other; try assumption.
  - apply IH. intros u Hu. apply H. right. exact Hu.
  - apply (H (a :: l)). left. reflexivity.
Qed.


(** A text that the token does not start within is a prefix of
    [g ++ token ++ y] only if it is one of [g]. *)
Lemma has_prefix_before_token x g y :
  starts_within token x = false ->
  has_prefix x (g ++ token ++ y) = true -> has_prefix x g = true.
Proof.
  intros Hx H.
  apply has_prefix_app_cases in H as [H|(v & -> & Hv & H)]; [exact H|].
  apply has_prefix_app_meets in H.
  assert (starts_within token (g ++ v) = true); [|congruence].
  apply existsb_exists. exists v. split; [apply tails_app; assumption|].
  unfold meets in *. rewrite orb_comm. exact H.
Qed.

(** A token is a barrier for the scan: the texts on its two sides are
    scanned on their own and the token stays. *)
Lemma replace_all_barrier new g s :
  replace_all old new (g ++ token ++ s) =
    replace_all old new g ++ token ++ replace_all old new s.
Proof.
  induction g as [|rest IH|a g Ha IH] using (scan_ind old old_nonempty).
  - rewrite replace_all_nil by assumption. cbn [app].
    apply replace_all_frame. intros u Hu.
    apply (no_start_within old token); [apply old_not_within_token | exact Hu].
  - rewrite <- app_assoc. rewrite 2 replace_all_match by assumption.
    rewrite IH. rewrite <- app_assoc. reflexivity.
  - cbn [app] in *. rewrite 2 replace_all_other; try assumption.
    + rewrite IH. reflexivity.
    + destruct (has_prefix old (a :: g ++ token ++ s)) eqn:E; [|reflexivity].
      apply (has_prefix_before_token old (a :: g) s) in E;
        [congruence | apply token_not_within_old].
Qed.

Lemma occurrences_barrier g s :
  occurrences old (g ++ token ++ s) = occurrences old g + occurrences old s.
Proof.
  induction g as [|rest IH|a g Ha IH] using (scan_ind old old_nonempty).
  - rewrite occurrences_nil by assumption. cbn [app].
    apply occurrences_frame. intros u Hu.
    apply (no_start_within old token); [apply old_not_within_token | exact Hu].
  - rewrite <- app_assoc. rewrite 2 occurrences_match by assumption.
    rewrite IH. reflexivity.
  - cbn [app] in *. rewrite 2 occurrences_other; try assumption.
    destruct (has_prefix old (a :: g ++ token ++ s)) eqn:E; [|reflexivity].
    apply (has_prefix_before_token old (a :: g) s) in E;
      [congruence | apply token_not_within_old].
Qed.





End ScanWithToken.

Section Tokenised.
Variables (c : ascii) (r : text).
Hypothesis token_unbordered : unbordered (c :: r) = true.

Lemma count_nomatch a s :
  has_prefix (c :: r) (a :: s) = false ->
  count (c :: r) (a :: s) = count (c :: r) s.
Proof. intros H. unfold count. cbn [count_from]. rewrite H. reflexivity. Qed.

Lemma count_free g : contains (c :: r) g = false -> count (c :: r) g = 0.
Proof.
  induction g as [|a g IH]; intros H; [reflexivity|].
  apply contains_cons_false in H as [H1 H2].
  rewrite count_nomatch by assumption. auto.
Qed.

(** In a stretch without the token that a token follows, no occurrence of
    the token starts. *)
Lemma count_gap_token g : forall s,
  contains (c :: r) g = false ->
  count (c :: r) (g ++ (c :: r) ++ s) = S (count (c :: r) s).
Proof.
  induction g as [|a g IH]; intros s H; [apply count_token|].
  apply contains_cons_false in H as [H1 H2].
  change ((a :: g) ++ (c :: r) ++ s) with (a :: (g ++ (c :: r) ++ s)).
  rewrite count_nomatch; [apply IH; assumption|].
  destruct (has_prefix (c :: r) (a :: g ++ (c :: r) ++ s)) eqn:E; [|reflexivity].
  exfalso.
  apply (has_prefix_app_cases (c :: r) (a :: g)) in E
    as [E|(v & Ev & Hv & E)]; [congruence|].
  apply has_prefix_app_meets in E. unfold meets in E.
  apply orb_prop in E as [E|E].
  - apply has_prefix_length in E. rewrite Ev in E.
    rewrite length_app in E. simpl in E. lia.
  - assert (Hin : In v (tl (tails (c :: r)))).
    { cbn [tails tl]. injection Ev as _ ->. apply tails_app. assumption. }
    unfold unbordered in token_unbordered.
    rewrite forallb_forall in token_unbordered.
    specialize (token_unbordered v Hin). rewrite E in token_unbordered.
    discriminate.
Qed.

Lemma count_join gaps :
  gaps <> [] -> Forall (fun g => contains (c :: r) g = false) gaps ->
  S (count (c :: r) (join_with (c :: r) gaps)) = length gaps.
Proof.
  induction gaps as [|g gaps IH]; intros Hne Hfree; [contradiction|].
  inversion Hfree as [|? ? Hg Hgaps]; subst.
  destruct gaps as [|g' gaps].
  - cbn [join_with length]. rewrite count_free by assumption. reflexivity.
  - rewrite join_with_cons, count_gap_token by assumption.
    rewrite IH by (discriminate || assumption). reflexivity.
Qed.

Section OneScan.
Variable old : text.
Hypothesis old_nonempty : old <> [].
Hypothesis token_apart : apart (c :: r) old = true.

Lemma replace_all_gaps gaps :
  gaps <> [] -> Forall (fun g => contains (c :: r) g = false) gaps ->
  exists gaps',
    Forall (fun g => contains (c :: r) g = false) gaps' /\
    replace_all old (c :: r) (join_with (c :: r) gaps) =
      join_with (c :: r) gaps' /\
    length gaps' = length gaps + occurrences old (join_with (c :: r) gaps).
Proof.
  induction gaps as [|g gaps IH]; intros Hne Hfree; [contradiction|].
  inversion Hfree as [|? ? Hg Hgaps]; subst.
  destruct (replace_all_shape old (c :: r) g old_nonempty)
    as (gaps1 & Hlen1 & Eg & Er).
  assert (Hfree1 : Forall (fun g => contains (c :: r) g = false) gaps1).
  { apply (join_with_free (c :: r) old). rewrite <- Eg. assumption. }
  destruct gaps as [|g' gaps].
  - exists gaps1. cbn [join_with length]. repeat split; assumption.
  - destruct IH as (gaps2 & Hfree2 & Er2 & Hlen2);
      [discriminate | assumption |].
    exists (gaps1 ++ gaps2). rewrite join_with_cons.
    rewrite (replace_all_barrier (c :: r) old old_nonempty token_apart).
    rewrite (occurrences_barrier (c :: r) old old_nonempty token_apart).
    repeat split.
    + apply Forall_app. auto.
    + rewrite join_with_app.
      * rewrite Er, Er2. reflexivity.
      * destruct gaps1; [discriminate | discriminate].
      * destruct gaps2; [cbn [length] in Hlen2; lia | discriminate].
    + rewrite length_app, Hlen1, Hlen2. cbn [length]. lia.
Qed.

(** A scan of a tokenised text inserts one token for each occurrence it
    finds and keeps the tokens that were there. *)
Lemma replace_all_tokenised s :
  tokenised (c :: r) s ->
  tokenised (c :: r) (replace_all old (c :: r) s) /\
  count (c :: r) (replace_all old (c :: r) s) =
    count (c :: r) s + occurrences old s.
Proof.
  intros (gaps & Hne & Hfree & ->).
  destruct (replace_all_gaps gaps Hne Hfree) as (gaps' & Hfree' & Er & Hlen).
  assert (Hne' : gaps' <> []).
  { destruct gaps'; [|discriminate]. destruct gaps; [contradiction|].
    cbn [length] in Hlen. lia. }
  split.
  - exists gaps'. auto.
  - rewrite Er.
    pose proof (count_join gaps Hne Hfree).
    pose proof (count_join gaps' Hne' Hfree'). lia.
Qed.

End OneScan.

End Tokenised.

(** *** Counting and containment *)

Lemma contains_split y : forall s,
  contains y s = true -> exists a b, s = a ++ y ++ b.
Proof.
  induction s as [|c s IH]; cbn [contains]; intros H.
  - rewrite orb_false_r in H. apply has_prefix_split in H.
    exists [], (skipn (length y) []). exact H.
  - apply orb_prop in H as [H|H].
    + apply has_prefix_split in H. exists [], (skipn (length y) (c :: s)). exact H.
    + destruct (IH H) as (a & b & ->). exists (c :: a), b. reflexivity.
Qed.

Lemma contains_refl x : contains x x = true.
Proof.
  apply contains_prefix. rewrite <- (app_nil_r x) at 2. apply has_prefix_app.
Qed.

(** Containment is transitive: an occurrence of [y] holds one of each run
    that [y] contains. *)
Lemma contains_trans x y s :
  contains x y = true -> contains y s = true -> contains x s = true.
Proof.
  intros Hxy Hys. destruct (contains_split y s Hys) as (a & b & ->).
  apply contains_app_r, contains_app_l, Hxy.
Qed.

(** [strings.Count] is zero exactly when [strings.Contains] is false. *)
Lemma count_zero_iff x s : count x s = 0 <-> contains x s = false.
Proof.
  destruct x as [|c r].
  - cbn [count]. destruct s; cbn; split; discriminate.
  - induction s as [|s IH | a s E IH]
      using (scan_ind (c :: r) ltac:(discriminate)).
    + split; reflexivity.
    + rewrite count_token.
      rewrite (contains_prefix (c :: r) ((c :: r) ++ s) (has_prefix_app _ _)).
      split; discriminate.
    + replace (count (c :: r) (a :: s)) with (count (c :: r) s)
        by (unfold count; cbn [count_from]; rewrite E; reflexivity).
      cbn [contains]. rewrite E. exact IH.
Qed.

(** A run that does not occur rules out every run that contains it. *)
Lemma count_zero_mono x y s :
  contains x y = true -> count x s = 0 -> count y s = 0.
Proof.
  intros Hxy Hx. apply count_zero_iff. apply count_zero_iff in Hx.
  destruct (contains y s) eqn:E; [|reflexivity].
  rewrite (contains_trans x y s Hxy E) in Hx. discriminate.
Qed.

End Strings.

Import Strings.

(** ** The output workflow *)

Module OutputWorkflow.

Definition OUTPUT_CONFIG_KEY_JSON : text := bytes "json".
Definition OUTPUT_CONFIG_KEY_JSON_FILE : text := bytes "json-file-output".

(** The dynamic type of [workflow.Data.GetPayload()], an [interface{}]:
    the entry point only distinguishes [[]byte], [string] and the rest. *)
Inductive Payload :=
| PBytes (b : text)
| PString (s : text)
| POther.

(** What the entry point reads of a [workflow.Data]. *)
Record Data := mkData {
  GetIdentifier : text;
  GetContentType : text;
  GetContentLocation : text;
  GetPayload : Payload
}.

(** The two configuration values the entry point reads. *)
Record Configuration := mkConfig {
  cfg_json : bool;            (* GetBool(OUTPUT_CONFIG_KEY_JSON) *)
  cfg_json_file : text        (* GetString(OUTPUT_CONFIG_KEY_JSON_FILE) *)
}.

(** Calls on the debug logger and on the output destination, in order. *)
Inductive Event :=
| LogProcessing (id location mime : text)
| LogWriting (id : text) (len : nat) (file : text)
| Println (s : text)
| Remove (file : text)
| WriteFile (file data : text).

Definition Unsupported (mime : text) : text :=
  bytes "Unsupported output type: " ++ mime.

(** How a call ends: a normal return of [(output, err)], or a run-time
    panic (a failed unchecked type assertion). *)
Inductive Outcome :=
| Returned (output : list Data) (err : option text)
| Panicked.

Definition location_or_unknown (d : Data) : text :=
  match GetContentLocation d with
  | [] => bytes "unknown"
  | l => l
  end.

(** One iteration of the [for i := range input] loop on item [d], with the
    loop-carried variable [printJsonToCmd].  [inl] is an early exit of the
    function, [inr] the new value of [printJsonToCmd]; both with the events
    of the iteration. *)
Definition step (writeJsonToFile : text) (printJsonToCmd : bool) (d : Data)
  : list Event * (Outcome + bool) :=
  let mimeType := GetContentType d in
  let log := LogProcessing (GetIdentifier d) (location_or_unknown d) mimeType in
  if contains OUTPUT_CONFIG_KEY_JSON mimeType then
    match GetPayload d with
    | PBytes singleData =>
        let printJsonToCmd :=
          if negb printJsonToCmd && (length writeJsonToFile =? 0)
          then true else printJsonToCmd in
        let printed :=
          if printJsonToCmd then [Println singleData] else [] in
        let written :=
          if 0 <? length writeJsonToFile
          then [LogWriting (GetIdentifier d) (length singleData) writeJsonToFile;
                Remove writeJsonToFile;
                WriteFile writeJsonToFile singleData]
          else [] in
        (log :: printed ++ written, inr printJsonToCmd)
    | _ => ([log], inl Panicked)
    end
  else
    match GetPayload d with
    | PBytes singleData => ([log; Println singleData], inr printJsonToCmd)
    | PString s => ([log; Println s], inr printJsonToCmd)
    | POther => ([log], inl (Returned [] (Some (Unsupported mimeType))))
    end.

(** The loop; after the last item the function returns [output, err] with
    [output = []Data{}] and [err = nil]. *)
Fixpoint loop (writeJsonToFile : text) (printJsonToCmd : bool)
  (input : list Data) : list Event * Outcome :=
  match input with
  | [] => ([], Returned [] None)
  | d :: rest =>
      match step writeJsonToFile printJsonToCmd d with
      | (evs, inl out) => (evs, out)
      | (evs, inr p) =>
          let '(evs', out) := loop writeJsonToFile p rest in
          (evs ++ evs', out)
      end
  end.

Definition outputWorkflowEntryPoint (config : Configuration)
  (input : list Data) : list Event * Outcome :=
  loop (cfg_json_file config) (cfg_json config) input.

(** An item the loop gets past: a byte slice, or a string outside JSON. *)
Definition handled (d : Data) : bool :=
  match GetPayload d with
  | PBytes _ => true
  | PString _ => negb (contains OUTPUT_CONFIG_KEY_JSON (GetContentType d))
  | POther => false
  end.

(** An item the entry point rejects: its content type is not JSON and its
    payload is neither a byte slice nor a string. *)
Definition unsupported (d : Data) : bool :=
  negb (contains OUTPUT_CONFIG_KEY_JSON (GetContentType d)) &&
  match GetPayload d with
  | POther => true
  | _ => false
  end.

(** Sample items. *)
Definition item (mime : string) (pl : Payload) : Data :=
  mkData (bytes "id") (bytes mime) [] pl.

Definition default_config : Configuration := mkConfig false [].

(** The items on the JSON branch of the loop: those whose content type has
    [OUTPUT_CONFIG_KEY_JSON] in it. *)
Definition is_json (d : Data) : bool :=
  contains OUTPUT_CONFIG_KEY_JSON (GetContentType d).

(** The bytes the loop passes on for an item: the byte slice, or the string
    of the text branch. *)
Definition payload_text (d : Data) : text :=
  match GetPayload d with
  | PBytes b => b
  | PString s => s
  | POther => []
  end.

(** Projections of a trace: the lines printed on the output destination, the
    files written with their contents, the files removed. *)
Definition printed (evs : list Event) : list text :=
  flat_map (fun e => match e with Println s => [s] | _ => [] end) evs.

Definition written (evs : list Event) : list (text * text) :=
  flat_map (fun e => match e with WriteFile f data => [(f, data)] | _ => [] end) evs.

Definition removed (evs : list Event) : list text :=
  flat_map (fun e => match e with Remove f => [f] | _ => [] end) evs.

Definition touches_file (e : Event) : bool :=
  match e with
  | LogWriting _ _ _ | Remove _ | WriteFile _ _ => true
  | _ => false
  end.

(** Whether JSON goes to the console: the [json] flag, or, by the default of
    lines 58 to 60, when no output file is configured either. *)
Definition prints_json (config : Configuration) : bool :=
  cfg_json config || (length (cfg_json_file config) =? 0).

(** *** Properties of the entry point *)

Lemma step_handled w p d :
  handled d = true -> exists evs p', step w p d = (evs, inr p').
Proof.
  unfold handled, step.
  destruct (GetPayload d), (contains OUTPUT_CONFIG_KEY_JSON (GetContentType d));
    simpl; intros H; try discriminate; eauto.
Qed.

Lemma step_unsupported w p d :
  unsupported d = true ->
  step w p d =
    ([LogProcessing (GetIdentifier d) (location_or_unknown d) (GetContentType d)],
     inl (Returned [] (Some (Unsupported (GetContentType d))))).
Proof.
  unfold unsupported, step.
  destruct (contains OUTPUT_CONFIG_KEY_JSON (GetContentType d)); simpl;
    [discriminate|].
  destruct (GetPayload d); try discriminate; reflexivity.
Qed.

Lemma step_returned w p d evs out err :
  step w p d = (evs, inl (Returned out err)) -> out = [].
Proof.
  unfold step.
  destruct (contains OUTPUT_CONFIG_KEY_JSON (GetContentType d)), (GetPayload d);
    intros H; inversion H; reflexivity.
Qed.

(** Whenever the loop returns, by the early exit or after the last item, the
    output list is the empty one it was initialised with. *)
Lemma loop_returned w input : forall p evs out err,
  loop w p input = (evs, Returned out err) -> out = [].
Proof.
  induction input as [|d rest IH]; simpl; intros p evs out err H.
  - inversion H; reflexivity.
  - destruct (step w p d) as [evs0 [o|p']] eqn:E.
    + inversion H; subst. eapply step_returned; eauto.
    + destruct (loop w p' rest) as [evs' o'] eqn:E'.
      inversion H; subst. eapply IH; eauto.
Qed.

(** The items before the first one that is not handled are processed as if
    the list ended there; the events of the rest never happen. *)
Lemma loop_stops_at_unsupported w pre d post : forall p,
  forallb handled pre = true -> unsupported d = true ->
  loop w p (pre ++ d :: post) =
    (fst (loop w p pre) ++
       [LogProcessing (GetIdentifier d) (location_or_unknown d) (GetContentType d)],
     Returned [] (Some (Unsupported (GetContentType d)))).
Proof.
  induction pre as [|a pre IH]; simpl; intros p Hpre Hd.
  - rewrite (step_unsupported w p d Hd). reflexivity.
  - apply andb_prop in Hpre as [Ha Hpre].
    destruct (step_handled w p a Ha) as (evs & p' & E). rewrite E.
    rewrite (IH p' Hpre Hd).
    destruct (loop w p' pre) as [evs' o']; simpl.
    rewrite app_assoc. reflexivity.
Qed.

(** When every item is one the loop gets past, the entry point returns
    without an error. *)
Lemma loop_all_handled w input : forall p,
  forallb handled input = true ->
  snd (loop w p input) = Returned [] None.
Proof.
  induction input as [|a input IH]; simpl; intros p H; [reflexivity|].
  apply andb_prop in H as [Ha H].
  destruct (step_handled w p a Ha) as (evs & p' & E). rewrite E.
  specialize (IH p' H). destruct (loop w p' input) as [evs' o']. exact IH.
Qed.

(** A JSON item whose payload is not a byte slice ends the call in a panic,
    whatever follows it. *)
Lemma loop_panics w pre d post : forall p,
  forallb handled pre = true ->
  contains OUTPUT_CONFIG_KEY_JSON (GetContentType d) = true ->
  (forall b, GetPayload d <> PBytes b) ->
  snd (loop w p (pre ++ d :: post)) = Panicked.
Proof.
  induction pre as [|a pre IH]; simpl; intros p Hpre Hjson Hpl.
  - unfold step. rewrite Hjson.
    destruct (GetPayload d) as [b| |]; [destruct (Hpl b eq_refl) | | ];
      reflexivity.
  - apply andb_prop in Hpre as [Ha Hpre].
    destruct (step_handled w p a Ha) as (evs & p' & E). rewrite E.
    specialize (IH p' Hpre Hjson Hpl).
    destruct (loop w p' (pre ++ d :: post)) as [evs' o']. exact IH.
Qed.

(** C10, as the code has it: when every item before an unsupported one
    (content type without "json", payload neither bytes nor string) is one
    the loop gets past, the entry point returns the error naming that item's
    content type with an empty output list, and nothing after the item's
    debug line happens: the events are those of the items before it plus
    that line.  Whenever the entry point returns at all, the output list is
    empty. *)
Theorem outputWorkflowEntryPoint_unsupported config pre d post :
  forallb handled pre = true ->
  unsupported d = true ->
  outputWorkflowEntryPoint config (pre ++ d :: post) =
    (fst (outputWorkflowEntryPoint config pre) ++
       [LogProcessing (GetIdentifier d) (location_or_unknown d) (GetContentType d)],
     Returned [] (Some (Unsupported (GetContentType d))))
  /\ (forall input evs out err,
        outputWorkflowEntryPoint config input = (evs, Returned out err) ->
        out = []).
Proof.
  intros Hpre Hd. split.
  - unfold outputWorkflowEntryPoint. apply loop_stops_at_unsupported; assumption.
  - unfold outputWorkflowEntryPoint. intros input evs out err H.
    eapply loop_returned; eauto.
Qed.

Lemma outputWorkflowEntryPoint_unsupported_witness :
  outputWorkflowEntryPoint default_config
    ([item "application/json" (PBytes (bytes "{}")); item "text/plain" (PString (bytes "hi"))]
       ++ item "image/png" POther :: [item "text/plain" (PString (bytes "never printed"))]) =
    ([LogProcessing (bytes "id") (bytes "unknown") (bytes "application/json");
      Println (bytes "{}");
      LogProcessing (bytes "id") (bytes "unknown") (bytes "text/plain");
      Println (bytes "hi");
      LogProcessing (bytes "id") (bytes "unknown") (bytes "image/png")],
     Returned [] (Some (bytes "Unsupported output type: image/png"))).
Proof.
  apply (outputWorkflowEntryPoint_unsupported default_config
           [item "application/json" (PBytes (bytes "{}"));
            item "text/plain" (PString (bytes "hi"))]
           (item "image/png" POther)
           [item "text/plain" (PString (bytes "never printed"))]);
    reflexivity.
Defined.

(** C10 as stated fails on two kinds of input.  A JSON item whose payload is
    not a byte slice makes the unchecked type assertion panic before a later
    unsupported item is reached; and of two unsupported items only the first
    is reported. *)
Lemma outputWorkflowEntryPoint_not_every_unsupported_item :
  (let input := [item "application/json" (PString (bytes "{}"));
                 item "image/png" POther] in
   existsb unsupported input = true /\
   outputWorkflowEntryPoint default_config input =
     ([LogProcessing (bytes "id") (bytes "unknown") (bytes "application/json")],
      Panicked))
  /\
  (let input := [item "image/png" POther; item "video/mp4" POther] in
   unsupported (item "video/mp4" POther) = true /\
   snd (outputWorkflowEntryPoint default_config input) =
     Returned [] (Some (bytes "Unsupported output type: image/png")) /\
   snd (outputWorkflowEntryPoint default_config input) <>
     Returned [] (Some (Unsupported (GetContentType (item "video/mp4" POther))))).
Proof.
  repeat split; try reflexivity. discriminate.
Qed.

(** *** The loop-carried flag

    [printJsonToCmd] is assigned inside the loop (line 59).  What an
    iteration does with it only depends on its disjunction with "no output
    file is configured", and that disjunction is the same after every
    iteration. *)

Lemma step_flag w p d evs p' :
  step w p d = (evs, inr p') ->
  p' || (length w =? 0) = p || (length w =? 0).
Proof.
  unfold step.
  destruct (contains OUTPUT_CONFIG_KEY_JSON (GetContentType d)), (GetPayload d);
    intros H; inversion H; subst; try reflexivity.
  destruct p, (length w =? 0); reflexivity.
Qed.

Lemma loop_flag w input : forall p,
  loop w p input = loop w (p || (length w =? 0)) input.
Proof.
  induction input as [|d rest IH]; intros p; [reflexivity|].
  destruct p; [reflexivity|].
  destruct (length w =? 0) eqn:Z; [|reflexivity].
  cbn [orb loop]. unfold step. rewrite Z.
  destruct (contains OUTPUT_CONFIG_KEY_JSON (GetContentType d)), (GetPayload d);
    cbn [negb andb]; try reflexivity;
    rewrite (IH false); reflexivity.
Qed.

Lemma loop_app w xs ys : forall p,
  forallb handled xs = true ->
  loop w p (xs ++ ys) =
    (fst (loop w p xs) ++ fst (loop w p ys), snd (loop w p ys)).
Proof.
  induction xs as [|a xs IH]; intros p H.
  - cbn [app loop fst]. destruct (loop w p ys); reflexivity.
  - cbn [forallb] in H. apply andb_prop in H as [Ha H].
    destruct (step_handled w p a Ha) as (evs & p' & E).
    cbn [app loop]. rewrite E, (IH p' H).
    rewrite (loop_flag w ys p'), (step_flag _ _ _ _ _ E), <- (loop_flag w ys p).
    destruct (loop w p' xs) as [e1 o1]. cbn [fst snd].
    rewrite app_assoc. reflexivity.
Qed.

Lemma first_unhandled input :
  forallb handled input = false ->
  exists pre d post,
    input = pre ++ d :: post /\ forallb handled pre = true /\ handled d = false.
Proof.
  induction input as [|a input IH]; cbn [forallb]; intros H; [discriminate|].
  destruct (handled a) eqn:Ha.
  - destruct (IH H) as (pre & d & post & -> & Hpre & Hd).
    exists (a :: pre), d, post. cbn [forallb]. rewrite Ha. auto.
  - exists [], a, input. auto.
Qed.

Lemma step_unhandled w p d :
  handled d = false -> exists evs out, step w p d = (evs, inl out) /\ out <> Returned [] None.
Proof.
  unfold handled, step.
  destruct (GetPayload d), (contains OUTPUT_CONFIG_KEY_JSON (GetContentType d));
    cbn [negb]; intros H; try discriminate; eexists _, _; split;
    try reflexivity; discriminate.
Qed.

Lemma loop_unhandled w pre d post : forall p,
  forallb handled pre = true -> handled d = false ->
  snd (loop w p (pre ++ d :: post)) <> Returned [] None.
Proof.
  intros p Hpre Hd. rewrite loop_app by assumption. cbn [snd loop].
  destruct (step_unhandled w p d Hd) as (evs & out & -> & Hout). exact Hout.
Qed.

(** X1.  The entry point returns normally with a nil error (and the empty
    output list) exactly when every item is one the loop gets past: a byte
    slice, or a string whose content type is not JSON.  Any other item ends
    the call with an error or a panic. *)
Theorem outputWorkflowEntryPoint_succeeds_iff config input :
  snd (outputWorkflowEntryPoint config input) = Returned [] None <->
  forallb handled input = true.
Proof.
  unfold outputWorkflowEntryPoint. split.
  - intros H. destruct (forallb handled input) eqn:E; [reflexivity|].
    destruct (first_unhandled input E) as (pre & d & post & -> & Hpre & Hd).
    destruct (loop_unhandled (cfg_json_file config) pre d post
                (cfg_json config) Hpre Hd H).
  - apply loop_all_handled.
Qed.

(** X2.  A JSON item whose payload is not a byte slice makes the unchecked
    type assertion of line 55 panic: the items before it are processed, its
    debug line is logged, and nothing of it or of the items after it is
    printed or written. *)
Theorem outputWorkflowEntryPoint_panics config pre d post :
  forallb handled pre = true ->
  is_json d = true ->
  (forall b, GetPayload d <> PBytes b) ->
  outputWorkflowEntryPoint config (pre ++ d :: post) =
    (fst (outputWorkflowEntryPoint config pre) ++
       [LogProcessing (GetIdentifier d) (location_or_unknown d) (GetContentType d)],
     Panicked).
Proof.
  unfold outputWorkflowEntryPoint, is_json. intros Hpre Hjson Hpl.
  rewrite loop_app by assumption. cbn [loop]. unfold step. rewrite Hjson.
  destruct (GetPayload d) as [b| |]; [destruct (Hpl b eq_refl)| |]; reflexivity.
Qed.

Lemma outputWorkflowEntryPoint_panics_witness :
  outputWorkflowEntryPoint (mkConfig true (bytes "out.json"))
    ([item "text/plain" (PString (bytes "hi"))]
       ++ item "application/json" (PString (bytes "{}"))
       :: [item "text/plain" (PString (bytes "never printed"))]) =
    ([LogProcessing (bytes "id") (bytes "unknown") (bytes "text/plain");
      Println (bytes "hi");
      LogProcessing (bytes "id") (bytes "unknown") (bytes "application/json")],
     Panicked).
Proof.
  apply (outputWorkflowEntryPoint_panics (mkConfig true (bytes "out.json"))
           [item "text/plain" (PString (bytes "hi"))]
           (item "application/json" (PString (bytes "{}")))
           [item "text/plain" (PString (bytes "never printed"))]);
    [reflexivity | reflexivity | discriminate].
Defined.

(** X3.  Processing composes: when the items of [xs] are all handled, the
    calls on the logger and the output destination for [xs ++ ys] are those
    for [xs] followed by those for [ys], and the result is that for [ys].
    The assignment to [printJsonToCmd] inside the loop does not make the
    treatment of an item depend on the items before it. *)
Theorem outputWorkflowEntryPoint_app config xs ys :
  forallb handled xs = true ->
  outputWorkflowEntryPoint config (xs ++ ys) =
    (fst (outputWorkflowEntryPoint config xs) ++
     fst (outputWorkflowEntryPoint config ys),
     snd (outputWorkflowEntryPoint config ys)).
Proof. unfold outputWorkflowEntryPoint. apply loop_app. Qed.

Lemma outputWorkflowEntryPoint_app_witness :
  outputWorkflowEntryPoint default_config
    ([item "text/plain" (PBytes (bytes "a")); item "application/json" (PBytes (bytes "{}"))]
       ++ [item "application/json" (PBytes (bytes "[]")); item "image/png" POther]) =
    ([LogProcessing (bytes "id") (bytes "unknown") (bytes "text/plain");
      Println (bytes "a");
      LogProcessing (bytes "id") (bytes "unknown") (bytes "application/json");
      Println (bytes "{}")] ++
     [LogProcessing (bytes "id") (bytes "unknown") (bytes "application/json");
      Println (bytes "[]");
      LogProcessing (bytes "id") (bytes "unknown") (bytes "image/png")],
     Returned [] (Some (bytes "Unsupported output type: image/png"))).
Proof.
  apply (outputWorkflowEntryPoint_app default_config
           [item "text/plain" (PBytes (bytes "a"));
            item "application/json" (PBytes (bytes "{}"))]
           [item "application/json" (PBytes (bytes "[]")); item "image/png" POther]).
  reflexivity.
Defined.

Lemma printed_app a b : printed (a ++ b) = printed a ++ printed b.
Proof. apply flat_map_app. Qed.

Lemma written_app a b : written (a ++ b) = written a ++ written b.
Proof. apply flat_map_app. Qed.

Lemma removed_app a b : removed (a ++ b) = removed a ++ removed b.
Proof. apply flat_map_app. Qed.

Lemma printed_one w p d :
  handled d = true ->
  printed (fst (loop w p [d])) =
    if negb (is_json d) || (p || (length w =? 0)) then [payload_text d] else [].
Proof.
  unfold handled, is_json, payload_text. cbn [loop]. unfold step.
  destruct (GetPayload d), (contains OUTPUT_CONFIG_KEY_JSON (GetContentType d));
    cbn [negb orb]; intros H; try discriminate; try reflexivity.
  destruct p, (length w =? 0), (0 <? length w); reflexivity.
Qed.

Lemma written_one w p d :
  handled d = true ->
  written (fst (loop w p [d])) =
    if is_json d && (0 <? length w) then [(w, payload_text d)] else [].
Proof.
  unfold handled, is_json, payload_text. cbn [loop]. unfold step.
  destruct (GetPayload d), (contains OUTPUT_CONFIG_KEY_JSON (GetContentType d));
    cbn [negb andb]; intros H; try discriminate; try reflexivity.
  destruct p, (length w =? 0), (0 <? length w); reflexivity.
Qed.

Lemma removed_step w p d :
  removed (fst (step w p d)) = map fst (written (fst (step w p d))).
Proof.
  unfold step.
  destruct (GetPayload d), (contains OUTPUT_CONFIG_KEY_JSON (GetContentType d));
    try reflexivity.
  destruct p, (length w =? 0), (0 <? length w); reflexivity.
Qed.

Lemma removed_loop w input : forall p,
  removed (fst (loop w p input)) = map fst (written (fst (loop w p input))).
Proof.
  induction input as [|d rest IH]; intros p; [reflexivity|].
  cbn [loop]. pose proof (removed_step w p d) as Hs.
  destruct (step w p d) as [evs [o|p']]; cbn [fst] in *; [exact Hs|].
  specialize (IH p'). destruct (loop w p' rest) as [evs' o']. cbn [fst] in *.
  rewrite removed_app, written_app, map_app, Hs, IH. reflexivity.
Qed.

(** X4.  What reaches the console: when every item is handled, the lines
    printed are, in input order, the payloads of all items that are not JSON
    and, if the [json] flag is set or no output file is configured, those of
    the JSON items as well.  With an output file and without the flag, JSON
    payloads are not printed. *)
Theorem outputWorkflowEntryPoint_printed config input :
  forallb handled input = true ->
  printed (fst (outputWorkflowEntryPoint config input)) =
    map payload_text
      (filter (fun d => negb (is_json d) || prints_json config) input).
Proof.
  unfold outputWorkflowEntryPoint, prints_json.
  set (w := cfg_json_file config). set (p := cfg_json config).
  induction input as [|a input IH]; intros H; [reflexivity|].
  cbn [forallb] in H. apply andb_prop in H as [Ha H].
  change (a :: input) with ([a] ++ input).
  rewrite loop_app by (cbn [forallb]; rewrite Ha; reflexivity).
  cbn [fst app filter]. rewrite printed_app, (IH H), (printed_one w p a Ha).
  destruct (negb (is_json a) || (p || (length w =? 0))); reflexivity.
Qed.

Lemma outputWorkflowEntryPoint_printed_witness :
  printed (fst (outputWorkflowEntryPoint (mkConfig false (bytes "out.json"))
                  [item "application/json" (PBytes (bytes "{}"));
                   item "text/plain" (PString (bytes "hi"));
                   item "application/octet-stream" (PBytes (bytes "raw"))])) =
    [bytes "hi"; bytes "raw"].
Proof.
  apply (outputWorkflowEntryPoint_printed (mkConfig false (bytes "out.json"))
           [item "application/json" (PBytes (bytes "{}"));
            item "text/plain" (PString (bytes "hi"));
            item "application/octet-stream" (PBytes (bytes "raw"))]).
  reflexivity.
Defined.

(** X5.  What reaches the file system: when every item is handled and an
    output file is configured, that file is written once per JSON item, in
    input order, with the item's bytes, so that the last JSON item is the
    last write; without an output file nothing is written.  Items that are
    not JSON are never written.  Removals and writes name the same files in
    the same order. *)
Theorem outputWorkflowEntryPoint_written config input :
  forallb handled input = true ->
  written (fst (outputWorkflowEntryPoint config input)) =
    (if 0 <? length (cfg_json_file config)
     then map (fun d => (cfg_json_file config, payload_text d))
              (filter is_json input)
     else [])
  /\ removed (fst (outputWorkflowEntryPoint config input)) =
     map fst (written (fst (outputWorkflowEntryPoint config input))).
Proof.
  unfold outputWorkflowEntryPoint.
  set (w := cfg_json_file config). set (p := cfg_json config).
  intros H. split; [|apply removed_loop].
  induction input as [|a input IH]; [destruct (0 <? length w); reflexivity|].
  cbn [forallb] in H. apply andb_prop in H as [Ha H].
  change (a :: input) with ([a] ++ input).
  rewrite loop_app by (cbn [forallb]; rewrite Ha; reflexivity).
  cbn [fst app filter]. rewrite written_app, (IH H), (written_one w p a Ha).
  destruct (is_json a), (0 <? length w); reflexivity.
Qed.

Lemma outputWorkflowEntryPoint_written_witness :
  written (fst (outputWorkflowEntryPoint (mkConfig true (bytes "out.json"))
                  [item "application/json" (PBytes (bytes "{}"));
                   item "text/plain" (PString (bytes "hi"));
                   item "application/json" (PBytes (bytes "[]"))])) =
    [(bytes "out.json", bytes "{}"); (bytes "out.json", bytes "[]")]
  /\ removed (fst (outputWorkflowEntryPoint (mkConfig true (bytes "out.json"))
                  [item "application/json" (PBytes (bytes "{}"));
                   item "text/plain" (PString (bytes "hi"));
                   item "application/json" (PBytes (bytes "[]"))])) =
     [bytes "out.json"; bytes "out.json"].
Proof.
  apply (outputWorkflowEntryPoint_written (mkConfig true (bytes "out.json"))
           [item "application/json" (PBytes (bytes "{}"));
            item "text/plain" (PString (bytes "hi"));
            item "application/json" (PBytes (bytes "[]"))]).
  reflexivity.
Defined.

Lemma step_no_file p d :
  forallb (fun e => negb (touches_file e)) (fst (step [] p d)) = true.
Proof.
  unfold step.
  destruct (GetPayload d), (contains OUTPUT_CONFIG_KEY_JSON (GetContentType d));
    try reflexivity.
  destruct p; reflexivity.
Qed.

(** X6.  Without a configured output file the entry point never touches the
    file system, whatever the input and however the call ends: no file is
    removed or written, and no write is logged. *)
Theorem outputWorkflowEntryPoint_no_file config input :
  cfg_json_file config = [] ->
  forallb (fun e => negb (touches_file e))
    (fst (outputWorkflowEntryPoint config input)) = true.
Proof.
  unfold outputWorkflowEntryPoint. intros ->. generalize (cfg_json config).
  induction input as [|d rest IH]; intros p; [reflexivity|].
  cbn [loop]. pose proof (step_no_file p d) as Hs.
  destruct (step [] p d) as [evs [o|p']]; cbn [fst] in *; [exact Hs|].
  specialize (IH p'). destruct (loop [] p' rest) as [evs' o']. cbn [fst] in *.
  rewrite forallb_app, Hs, IH. reflexivity.
Qed.

Lemma outputWorkflowEntryPoint_no_file_witness :
  forallb (fun e => negb (touches_file e))
    (fst (outputWorkflowEntryPoint (mkConfig true [])
            [item "application/json" (PBytes (bytes "{}"));
             item "image/png" POther])) = true.
Proof.
  apply (outputWorkflowEntryPoint_no_file (mkConfig true [])
           [item "application/json" (PBytes (bytes "{}")); item "image/png" POther]).
  reflexivity.
Defined.

Lemma step_head w p d :
  exists tl,
    fst (step w p d) =
      LogProcessing (GetIdentifier d) (location_or_unknown d) (GetContentType d) :: tl.
Proof.
  unfold step.
  destruct (GetPayload d), (contains OUTPUT_CONFIG_KEY_JSON (GetContentType d));
    cbn [fst]; eauto.
Qed.

Lemma loop_head w p input f data l2 :
  fst (loop w p input) <> WriteFile f data :: l2.
Proof.
  destruct input as [|d rest]; cbn [loop fst]; [discriminate|].
  destruct (step_head w p d) as [tl Hs].
  destruct (step w p d) as [evs [o|p']]; cbn [fst] in *; subst evs;
    [discriminate|].
  destruct (loop w p' rest) as [evs' o']. discriminate.
Qed.

Ltac scan_for_write H l1 :=
  repeat (destruct l1 as [|? l1]; cbn [app] in H;
          [ try discriminate H; injection H as ? ?; subst
          | try discriminate H; injection H as ? H; subst ]).

Lemma step_write w p d l1 l2 f data :
  fst (step w p d) = l1 ++ WriteFile f data :: l2 ->
  f = w /\
  l1 = removelast (removelast l1) ++
         [LogWriting (GetIdentifier d) (length data) f; Remove f].
Proof.
  unfold step.
  destruct (GetPayload d), (contains OUTPUT_CONFIG_KEY_JSON (GetContentType d));
    try destruct p; try destruct (length w =? 0); try destruct (0 <? length w);
    cbn [fst negb andb app]; intros H; scan_for_write H l1;
    split; reflexivity.
Qed.

Lemma loop_write w input : forall p l1 l2 f data,
  fst (loop w p input) = l1 ++ WriteFile f data :: l2 ->
  f = w /\ exists l0 id, l1 = l0 ++ [LogWriting id (length data) f; Remove f].
Proof.
  induction input as [|d rest IH]; intros p l1 l2 f data H.
  - destruct l1; discriminate H.
  - cbn [loop] in H.
    pose proof (fun l1 l2 => step_write w p d l1 l2 f data) as Hs.
    pose proof (loop_head w) as Hh.
    destruct (step w p d) as [evs [o|p']]; cbn [fst] in *.
    + destruct (Hs _ _ H) as [-> E]. split; [reflexivity|]. eauto.
    + specialize (IH p'). specialize (Hh p' rest).
      destruct (loop w p' rest) as [evs' o']. cbn [fst] in *.
      apply app_eq_app in H as [l [[E1 E2]|[E1 E2]]].
      * destruct l as [|e l].
        -- cbn [app] in E2. symmetry in E2. destruct (Hh _ _ _ E2).
        -- cbn [app] in E2. injection E2 as <- _.
           destruct (Hs _ _ E1) as [-> E]. split; [reflexivity|]. eauto.
      * destruct (IH _ _ _ _ E2) as [-> (l0 & id & ->)]. split; [reflexivity|].
        subst l1. exists (evs ++ l0), id. rewrite app_assoc. reflexivity.
Qed.

(** X7.  Every write is a logged replacement: whatever the input, each call
    of [WriteFile] is on the configured output file and comes directly after
    the debug line that gives the length of the data written and the call of
    [Remove] on that same file. *)
Theorem outputWorkflowEntryPoint_remove_before_write config input l1 l2 f data :
  fst (outputWorkflowEntryPoint config input) = l1 ++ WriteFile f data :: l2 ->
  f = cfg_json_file config /\
  exists l0 id, l1 = l0 ++ [LogWriting id (length data) f; Remove f].
Proof. unfold outputWorkflowEntryPoint. apply loop_write. Qed.

Lemma outputWorkflowEntryPoint_remove_before_write_witness :
  bytes "out.json" = cfg_json_file (mkConfig false (bytes "out.json")) /\
  exists l0 id,
    [LogProcessing (bytes "id") (bytes "unknown") (bytes "application/json");
     LogWriting (bytes "id") 2 (bytes "out.json");
     Remove (bytes "out.json")] =
    l0 ++ [LogWriting id (length (bytes "{}")) (bytes "out.json");
           Remove (bytes "out.json")].
Proof.
  apply (outputWorkflowEntryPoint_remove_before_write
           (mkConfig false (bytes "out.json"))
           [item "application/json" (PBytes (bytes "{}")); item "image/png" POther]
           [LogProcessing (bytes "id") (bytes "unknown") (bytes "application/json");
            LogWriting (bytes "id") 2 (bytes "out.json");
            Remove (bytes "out.json")]
           [LogProcessing (bytes "id") (bytes "unknown") (bytes "image/png")]
           (bytes "out.json") (bytes "{}")).
  reflexivity.
Defined.

Lemma step_result w w' p p' d :
  match snd (step w p d), snd (step w' p' d) with
  | inl o, inl o' => o = o'
  | inr _, inr _ => True
  | _, _ => False
  end.
Proof.
  unfold step.
  destruct (GetPayload d), (contains OUTPUT_CONFIG_KEY_JSON (GetContentType d));
    cbn [snd]; auto.
Qed.

Lemma loop_result w w' input : forall p p',
  snd (loop w p input) = snd (loop w' p' input).
Proof.
  induction input as [|d rest IH]; intros p p'; [reflexivity|].
  cbn [loop]. pose proof (step_result w w' p p' d) as Hs.
  destruct (step w p d) as [evs [o|q]], (step w' p' d) as [evs' [o'|q']];
    cbn [snd] in Hs; try contradiction.
  - exact Hs.
  - specialize (IH q q').
    destruct (loop w q rest), (loop w' q' rest). exact IH.
Qed.

(** X8.  How the call ends does not depend on the configuration: the [json]
    flag and the output file decide where payloads go, never whether the
    entry point returns normally, returns an error, or panics. *)
Theorem outputWorkflowEntryPoint_result_independent config config' input :
  snd (outputWorkflowEntryPoint config input) =
  snd (outputWorkflowEntryPoint config' input).
Proof. unfold outputWorkflowEntryPoint. apply loop_result. Qed.

End OutputWorkflow.

(** ** JSON texts and value trees

    The payloads of the Structural Redactor are JSON texts.  This module has
    the value tree, a decoder and an encoder for it, and the grammar of JSON
    texts as a relation, for which the decoder is proved sound and complete.

    The tree keeps what the redactor must give back unchanged: the members
    of an object in their order (a key given twice stays twice), a number as
    its literal, and a string, key or value, as the body of its literal with
    the escapes as written.  The encoder writes the compact form, without
    white space. *)

Module Json.

Definition dquote : ascii := ascii_of_nat 34.
Definition backslash : ascii := ascii_of_nat 92.

(** Single quotes stand for double quotes in the sample payloads. *)
Definition jtext (s : string) : text :=
  map (fun c => if Ascii.eqb c "'" then dquote else c) (bytes s).

(** The JSON Value Tree. *)
Inductive json :=
| JNull
| JBool (b : bool)
| JNumber (lit : text)
| JString (body : text)
| JArray (elems : list json)
| JObject (members : list (text * json)).

(** JSON white space: space, tab, line feed, carriage return. *)
Definition is_ws (c : ascii) : bool :=
  Ascii.eqb c " " || Ascii.eqb c (ascii_of_nat 9)
  || Ascii.eqb c (ascii_of_nat 10) || Ascii.eqb c (ascii_of_nat 13).

Fixpoint skip_ws (s : text) : text :=
  match s with
  | c :: s' => if is_ws c then skip_ws s' else s
  | [] => []
  end.

Definition is_digit (c : ascii) : bool :=
  let n := nat_of_ascii c in (48 <=? n) && (n <=? 57).

Definition is_hex (c : ascii) : bool :=
  let n := nat_of_ascii c in
  is_digit c || ((65 <=? n) && (n <=? 70)) || ((97 <=? n) && (n <=? 102)).

(** The characters after a backslash that form a two-character escape. *)
Definition is_simple_escape (c : ascii) : bool :=
  Ascii.eqb c dquote || Ascii.eqb c backslash || Ascii.eqb c "/"
  || Ascii.eqb c "b" || Ascii.eqb c "f" || Ascii.eqb c "n"
  || Ascii.eqb c "r" || Ascii.eqb c "t".

(** A character that stands for itself inside a string literal. *)
Definition is_plain (c : ascii) : bool :=
  negb (nat_of_ascii c <? 32) && negb (Ascii.eqb c dquote)
  && negb (Ascii.eqb c backslash).

(** Scan a string literal after its opening quote: the body, kept as
    written, and what follows the closing quote. *)
Fixpoint scan_string (s : text) : option (text * text) :=
  match s with
  | [] => None
  | c :: s1 =>
      if Ascii.eqb c dquote then Some ([], s1)
      else if Ascii.eqb c backslash then
        match s1 with
        | e :: s2 =>
            if is_simple_escape e then
              match scan_string s2 with
              | Some (body, rest) => Some (c :: e :: body, rest)
              | None => None
              end
            else if Ascii.eqb e "u" then
              match s2 with
              | h1 :: h2 :: h3 :: h4 :: s3 =>
                  if is_hex h1 && is_hex h2 && is_hex h3 && is_hex h4 then
                    match scan_string s3 with
                    | Some (body, rest) =>
                        Some (c :: e :: h1 :: h2 :: h3 :: h4 :: body, rest)
                    | None => None
                    end
                  else None
              | _ => None
              end
            else None
        | [] => None
        end
      else if is_plain c then
        match scan_string s1 with
        | Some (body, rest) => Some (c :: body, rest)
        | None => None
        end
      else None
  end.

(** The characters a number literal is made of. *)
Definition is_numchar (c : ascii) : bool :=
  is_digit c || Ascii.eqb c "-" || Ascii.eqb c "+" || Ascii.eqb c "."
  || Ascii.eqb c "e" || Ascii.eqb c "E".

Fixpoint span_num (s : text) : text * text :=
  match s with
  | c :: s' =>
      if is_numchar c then let '(a, b) := span_num s' in (c :: a, b)
      else ([], s)
  | [] => ([], [])
  end.

Fixpoint drop_digits (s : text) : text :=
  match s with
  | c :: s' => if is_digit c then drop_digits s' else s
  | [] => []
  end.

(** One or more digits, then the rest. *)
Definition digits1 (s : text) : option text :=
  match s with
  | c :: s' => if is_digit c then Some (drop_digits s') else None
  | [] => None
  end.

Definition number_exp (s : text) : bool :=
  match s with
  | [] => true
  | c :: s1 =>
      if Ascii.eqb c "e" || Ascii.eqb c "E" then
        let s2 := match s1 with
                  | d :: s2 => if Ascii.eqb d "+" || Ascii.eqb d "-" then s2 else s1
                  | [] => s1
                  end in
        match digits1 s2 with
        | Some [] => true
        | _ => false
        end
      else false
  end.

Definition number_frac (s : text) : bool :=
  match s with
  | c :: s1 =>
      if Ascii.eqb c "." then
        match digits1 s1 with
        | Some s2 => number_exp s2
        | None => false
        end
      else number_exp s
  | [] => true
  end.

Definition number_int (s : text) : bool :=
  match s with
  | c :: s1 =>
      if Ascii.eqb c "0" then number_frac s1
      else if is_digit c then number_frac (drop_digits s1)
      else false
  | [] => false
  end.

(** The JSON number grammar: an optional minus sign; a zero, or a non-zero
    digit and more digits; optionally a point and digits; optionally an
    exponent mark, a sign and digits. *)
Definition valid_number (s : text) : bool :=
  match s with
  | c :: s1 => if Ascii.eqb c "-" then number_int s1 else number_int s
  | [] => false
  end.

Definition lit_null := bytes "null".
Definition lit_true := bytes "true".
Definition lit_false := bytes "false".

(** The parser, by recursive descent.  [parse_value] reads one value at the
    head of [s]; [parse_elements] and [parse_members] read what follows the
    opening bracket of a non-empty array and object, up to the closing one.
    Each gives what it read and the rest of the text.  [fuel] bounds the
    nesting and the length; [decode] gives enough. *)
Fixpoint parse_value (fuel : nat) (s : text) {struct fuel}
  : option (json * text) :=
  match fuel with
  | 0 => None
  | S n =>
      match s with
      | [] => None
      | c :: s1 =>
          if Ascii.eqb c "{" then
            match skip_ws s1 with
            | c2 :: s2 =>
                if Ascii.eqb c2 "}" then Some (JObject [], s2)
                else match parse_members n s1 with
                     | Some (ms, rest) => Some (JObject ms, rest)
                     | None => None
                     end
            | [] => None
            end
          else if Ascii.eqb c "[" then
            match skip_ws s1 with
            | c2 :: s2 =>
                if Ascii.eqb c2 "]" then Some (JArray [], s2)
                else match parse_elements n s1 with
                     | Some (vs, rest) => Some (JArray vs, rest)
                     | None => None
                     end
            | [] => None
            end
          else if Ascii.eqb c dquote then
            match scan_string s1 with
            | Some (body, rest) => Some (JString body, rest)
            | None => None
            end
          else if has_prefix lit_null s then Some (JNull, skipn 4 s)
          else if has_prefix lit_true s then Some (JBool true, skipn 4 s)
          else if has_prefix lit_false s then Some (JBool false, skipn 5 s)
          else
            let '(lit, rest) := span_num s in
            if valid_number lit then Some (JNumber lit, rest) else None
      end
  end

with parse_elements (fuel : nat) (s : text) {struct fuel}
  : option (list json * text) :=
  match fuel with
  | 0 => None
  | S n =>
      match parse_value n (skip_ws s) with
      | Some (v, r) =>
          match skip_ws r with
          | c :: r1 =>
              if Ascii.eqb c "," then
                match parse_elements n r1 with
                | Some (vs, rest) => Some (v :: vs, rest)
                | None => None
                end
              else if Ascii.eqb c "]" then Some ([v], r1)
              else None
          | [] => None
          end
      | None => None
      end
  end

with parse_members (fuel : nat) (s : text) {struct fuel}
  : option (list (text * json) * text) :=
  match fuel with
  | 0 => None
  | S n =>
      match skip_ws s with
      | q :: s1 =>
          if Ascii.eqb q dquote then
            match scan_string s1 with
            | Some (k, r) =>
                match skip_ws r with
                | c :: r1 =>
                    if Ascii.eqb c ":" then
                      match parse_value n (skip_ws r1) with
                      | Some (v, r2) =>
                          match skip_ws r2 with
                          | c2 :: r3 =>
                              if Ascii.eqb c2 "," then
                                match parse_members n r3 with
                                | Some (ms, rest) => Some ((k, v) :: ms, rest)
                                | None => None
                                end
                              else if Ascii.eqb c2 "}" then Some ([(k, v)], r3)
                              else None
                          | [] => None
                          end
                      | None => None
                      end
                    else None
                | [] => None
                end
            | None => None
            end
          else None
      | [] => None
      end
  end.

(** Decoding of a payload into a value tree: one value, surrounded by
    optional white space, and nothing else.  It stands where the Go code
    would call [json.Unmarshal], but keeps the text's own order, duplicate
    keys and literals, which Go's generic decoding does not. *)
Definition decode (p : text) : option json :=
  match parse_value (S (length p)) (skip_ws p) with
  | Some (t, rest) =>
      match skip_ws rest with
      | [] => Some t
      | _ => None
      end
  | None => None
  end.

(** The parts with [sep] between them. *)
Fixpoint join (sep : ascii) (parts : list text) : text :=
  match parts with
  | [] => []
  | [p] => p
  | p :: ps => p ++ sep :: join sep ps
  end.

(** Encoding of a value tree: the compact text, with keys, numbers and
    strings as the tree has them.  It stands where the Go code would call
    [json.Marshal], which sorts the keys of a map and writes numbers and
    escapes in its own way. *)
Fixpoint encode (t : json) : text :=
  match t with
  | JNull => lit_null
  | JBool true => lit_true
  | JBool false => lit_false
  | JNumber lit => lit
  | JString body => dquote :: body ++ [dquote]
  | JArray vs => "["%char :: join ","%char (map encode vs) ++ ["]"%char]
  | JObject ms =>
      "{"%char
        :: join ","%char
             (map (fun m => dquote :: fst m ++ dquote :: ":"%char :: encode (snd m)) ms)
        ++ ["}"%char]
  end.

Definition hex_digit (n : nat) : ascii :=
  if n <? 10 then ascii_of_nat (48 + n) else ascii_of_nat (87 + n).

Definition escape_char (c : ascii) : text :=
  if Ascii.eqb c dquote then [backslash; dquote]
  else if Ascii.eqb c backslash then [backslash; backslash]
  else if nat_of_ascii c <? 32 then
    [backslash; "u"%char; "0"%char; "0"%char;
     hex_digit (nat_of_ascii c / 16); hex_digit (nat_of_ascii c mod 16)]
  else [c].

(** A text as the body of a JSON string literal: the quote, the backslash
    and the control characters escaped. *)
Definition escape (s : text) : text := flat_map escape_char s.

(** *** The grammar of JSON texts *)

Definition ws (w : text) : Prop := forallb is_ws w = true.

(** The body of a string literal, between the quotes. *)
Inductive body_text : text -> Prop :=
| BT_end : body_text []
| BT_plain c s : is_plain c = true -> body_text s -> body_text (c :: s)
| BT_escape e s :
    is_simple_escape e = true -> body_text s ->
    body_text (backslash :: e :: s)
| BT_unicode h1 h2 h3 h4 s :
    is_hex h1 = true -> is_hex h2 = true -> is_hex h3 = true ->
    is_hex h4 = true -> body_text s ->
    body_text (backslash :: "u"%char :: h1 :: h2 :: h3 :: h4 :: s).

(** [value_text s v]: the text [s], without surrounding white space, is a
    JSON value and [v] is its tree.  [elements_text] and [members_text]
    describe what stands between the brackets of a non-empty array and
    object. *)
Inductive value_text : text -> json -> Prop :=
| VT_null : value_text lit_null JNull
| VT_true : value_text lit_true (JBool true)
| VT_false : value_text lit_false (JBool false)
| VT_number lit : valid_number lit = true -> value_text lit (JNumber lit)
| VT_string body :
    body_text body -> value_text (dquote :: body ++ [dquote]) (JString body)
| VT_array_empty w :
    ws w -> value_text ("["%char :: w ++ ["]"%char]) (JArray [])
| VT_array s vs :
    elements_text s vs -> value_text ("["%char :: s ++ ["]"%char]) (JArray vs)
| VT_object_empty w :
    ws w -> value_text ("{"%char :: w ++ ["}"%char]) (JObject [])
| VT_object s ms :
    members_text s ms -> value_text ("{"%char :: s ++ ["}"%char]) (JObject ms)

with elements_text : text -> list json -> Prop :=
| ET_last w1 s v w2 :
    ws w1 -> value_text s v -> ws w2 ->
    elements_text (w1 ++ s ++ w2) [v]
| ET_cons w1 s v w2 s' vs :
    ws w1 -> value_text s v -> ws w2 -> elements_text s' vs ->
    elements_text (w1 ++ s ++ w2 ++ ","%char :: s') (v :: vs)

with members_text : text -> list (text * json) -> Prop :=
| MT_last w1 k w2 w3 s v w4 :
    ws w1 -> body_text k -> ws w2 -> ws w3 -> value_text s v -> ws w4 ->
    members_text
      (w1 ++ dquote :: k ++ dquote :: w2 ++ ":"%char :: w3 ++ s ++ w4)
      [(k, v)]
| MT_cons w1 k w2 w3 s v w4 s' ms :
    ws w1 -> body_text k -> ws w2 -> ws w3 -> value_text s v -> ws w4 ->
    members_text s' ms ->
    members_text
      (w1 ++ dquote :: k ++ dquote :: w2 ++ ":"%char :: w3 ++ s ++ w4
          ++ ","%char :: s')
      ((k, v) :: ms).

Scheme value_text_mind := Minimality for value_text Sort Prop
  with elements_text_mind := Minimality for elements_text Sort Prop
  with members_text_mind := Minimality for members_text Sort Prop.

Combined Scheme json_text_mutind
  from value_text_mind, elements_text_mind, members_text_mind.

(** A payload is valid JSON when it is one value with optional white space
    around it. *)
Definition json_text (p : text) (t : json) : Prop :=
  exists w1 s w2, p = w1 ++ s ++ w2 /\ ws w1 /\ ws w2 /\ value_text s t.

Definition valid_json (p : text) : Prop := exists t, json_text p t.

Definition encode_member (m : text * json) : text :=
  dquote :: fst m ++ dquote :: ":"%char :: encode (snd m).

(** What may follow a number: the end, or a character no number has. *)
Definition ends_number (rest : text) : Prop :=
  match rest with
  | [] => True
  | c :: _ => is_numchar c = false
  end.

(** A value starts with a character that is neither white space nor a
    closing bracket. *)
Definition starts_value (s : text) : Prop :=
  exists c s', s = c :: s' /\ is_ws c = false /\
               Ascii.eqb c "]" = false /\ Ascii.eqb c "}" = false.

(** *** Lexical lemmas *)

Ltac ascii_cases c :=
  destruct c as [[|] [|] [|] [|] [|] [|] [|] [|]]; vm_compute;
  try reflexivity; try discriminate; auto.

Lemma ws_nil : ws [].
Proof. reflexivity. Qed.

Lemma ws_app w1 w2 : ws w1 -> ws w2 -> ws (w1 ++ w2).
Proof. unfold ws. rewrite forallb_app. intros -> ->. reflexivity. Qed.

Lemma skip_ws_split s : exists w, s = w ++ skip_ws s /\ ws w.
Proof.
  induction s as [|c s (w & E & Hw)]; simpl.
  - exists []. split; [reflexivity | apply ws_nil].
  - destruct (is_ws c) eqn:Hc.
    + exists (c :: w). split; [simpl; congruence|].
      unfold ws; simpl. rewrite Hc. exact Hw.
    + exists []. split; [reflexivity | apply ws_nil].
Qed.

Lemma skip_ws_app w x : ws w -> skip_ws (w ++ x) = skip_ws x.
Proof.
  unfold ws. induction w as [|c w IH]; simpl; [reflexivity|].
  intros H. apply andb_prop in H as [Hc Hw]. rewrite Hc. auto.
Qed.

Lemma skip_ws_ws w : ws w -> skip_ws w = [].
Proof.
  intros H. rewrite <- (app_nil_r w). rewrite skip_ws_app by assumption.
  reflexivity.
Qed.

Lemma skip_ws_head c x : is_ws c = false -> skip_ws (c :: x) = c :: x.
Proof. simpl. intros ->. reflexivity. Qed.

Lemma skip_ws_nil_ws s : skip_ws s = [] -> ws s.
Proof.
  destruct (skip_ws_split s) as (w & E & Hw). intros H.
  rewrite H, app_nil_r in E. subst. assumption.
Qed.

Lemma plain_not_special c :
  is_plain c = true ->
  Ascii.eqb c dquote = false /\ Ascii.eqb c backslash = false.
Proof.
  unfold is_plain. destruct (Ascii.eqb c dquote), (Ascii.eqb c backslash);
    rewrite ?andb_false_r; simpl; intros H; try discriminate; auto.
Qed.

Lemma scan_string_sound n : forall s body rest,
  length s <= n ->
  scan_string s = Some (body, rest) ->
  s = body ++ dquote :: rest /\ body_text body.
Proof.
  induction n as [|n IH]; intros s body rest Hlen H.
  - destruct s; [discriminate | simpl in Hlen; lia].
  - destruct s as [|c s1]; [discriminate|]. simpl in Hlen. simpl in H.
    destruct (Ascii.eqb c dquote) eqn:Hq.
    { apply Ascii.eqb_eq in Hq. inversion H; subst. split; [reflexivity | constructor]. }
    destruct (Ascii.eqb c backslash) eqn:Hb.
    { apply Ascii.eqb_eq in Hb. subst c.
      destruct s1 as [|e s2]; [discriminate|]. simpl in Hlen.
      destruct (is_simple_escape e) eqn:He.
      - destruct (scan_string s2) as [[b r]|] eqn:E; [|discriminate].
        inversion H; subst.
        apply IH in E as [-> Hb']; [|lia].
        split; [reflexivity | constructor; assumption].
      - destruct (Ascii.eqb e "u") eqn:Hu; [|discriminate].
        apply Ascii.eqb_eq in Hu. subst e.
        destruct s2 as [|h1 [|h2 [|h3 [|h4 s3]]]]; try discriminate.
        simpl in Hlen.
        destruct (is_hex h1 && is_hex h2 && is_hex h3 && is_hex h4) eqn:Hh;
          [|discriminate].
        destruct (scan_string s3) as [[b r]|] eqn:E; [|discriminate].
        inversion H; subst.
        apply IH in E as [-> Hb']; [|lia].
        apply andb_prop in Hh as [Hh H4]. apply andb_prop in Hh as [Hh H3].
        apply andb_prop in Hh as [H1 H2].
        split; [reflexivity | constructor; assumption]. }
    destruct (is_plain c) eqn:Hp; [|discriminate].
    destruct (scan_string s1) as [[b r]|] eqn:E; [|discriminate].
    inversion H; subst.
    apply IH in E as [-> Hb']; [|lia].
    split; [reflexivity | constructor; assumption].
Qed.

Lemma scan_string_complete body rest :
  body_text body -> scan_string (body ++ dquote :: rest) = Some (body, rest).
Proof.
  induction 1 as [|c s Hc _ IH|e s He _ IH|h1 h2 h3 h4 s H1 H2 H3 H4 _ IH].
  - simpl. rewrite ?Ascii.eqb_refl. reflexivity.
  - destruct (plain_not_special c Hc) as [Hq Hb].
    simpl. rewrite Hq, Hb, Hc, IH. reflexivity.
  - simpl. rewrite He. simpl in IH. rewrite IH. reflexivity.
  - simpl. simpl in IH. rewrite H1, H2, H3, H4, IH. reflexivity.
Qed.

Lemma drop_digits_split s :
  exists d, s = d ++ drop_digits s /\ forallb is_digit d = true.
Proof.
  induction s as [|c s (d & E & Hd)]; simpl.
  - exists []. auto.
  - destruct (is_digit c) eqn:Hc.
    + exists (c :: d). simpl. rewrite Hc. split; [congruence | assumption].
    + exists []. auto.
Qed.

Lemma digit_numchar c : is_digit c = true -> is_numchar c = true.
Proof. unfold is_numchar. intros ->. reflexivity. Qed.

Lemma digits_numchars d :
  forallb is_digit d = true -> forallb is_numchar d = true.
Proof.
  induction d as [|c d IH]; simpl; [reflexivity|].
  intros H. apply andb_prop in H as [Hc Hd].
  rewrite (digit_numchar c Hc), IH; auto.
Qed.

(** A text that [drop_digits] leaves [r] of is digits followed by [r]. *)
Lemma drop_digits_numchars s :
  forallb is_numchar (drop_digits s) = true -> forallb is_numchar s = true.
Proof.
  destruct (drop_digits_split s) as (d & E & Hd). intros H.
  rewrite E, forallb_app, (digits_numchars d Hd). exact H.
Qed.

Lemma digits1_numchars s r :
  digits1 s = Some r -> forallb is_numchar r = true ->
  forallb is_numchar s = true.
Proof.
  destruct s as [|c s]; simpl; [discriminate|].
  destruct (is_digit c) eqn:Hc; [|discriminate].
  intros H Hr. inversion H; subst.
  rewrite (digit_numchar c Hc). apply drop_digits_numchars. assumption.
Qed.

Lemma number_exp_numchars s :
  number_exp s = true -> forallb is_numchar s = true.
Proof.
  destruct s as [|c s1]; [reflexivity|]. unfold number_exp.
  destruct (Ascii.eqb c "e" || Ascii.eqb c "E") eqn:Hc; [|discriminate].
  assert (Hn : is_numchar c = true).
  { unfold is_numchar. apply orb_prop in Hc as [->| ->];
      rewrite ?orb_true_r; reflexivity. }
  simpl. rewrite Hn. simpl.
  destruct s1 as [|d s2]; [discriminate|].
  destruct (Ascii.eqb d "+" || Ascii.eqb d "-") eqn:Hd.
  - destruct (digits1 s2) as [[|]|] eqn:E; try discriminate. intros _.
    simpl.
    assert (Hn' : is_numchar d = true).
    { unfold is_numchar. apply orb_prop in Hd as [->| ->];
        rewrite ?orb_true_r; reflexivity. }
    rewrite Hn'. simpl. eapply digits1_numchars; eauto.
  - destruct (digits1 (d :: s2)) as [[|]|] eqn:E; try discriminate. intros _.
    eapply digits1_numchars; eauto.
Qed.

Lemma number_frac_numchars s :
  number_frac s = true -> forallb is_numchar s = true.
Proof.
  destruct s as [|c s1]; [reflexivity|]. unfold number_frac.
  destruct (Ascii.eqb c ".") eqn:Hc.
  - destruct (digits1 s1) as [s2|] eqn:E; [|discriminate]. intros H.
    simpl. unfold is_numchar at 1. rewrite Hc, ?orb_true_r. simpl.
    eapply digits1_numchars; eauto. apply number_exp_numchars; assumption.
  - apply number_exp_numchars.
Qed.

Lemma number_int_numchars s :
  number_int s = true -> s <> [] /\ forallb is_numchar s = true.
Proof.
  destruct s as [|c s1]; simpl; [discriminate|].
  destruct (Ascii.eqb c "0") eqn:H0.
  - apply Ascii.eqb_eq in H0. subst c. intros H. split; [discriminate|].
    simpl. apply number_frac_numchars; assumption.
  - destruct (is_digit c) eqn:Hc; [|discriminate]. intros H.
    split; [discriminate|].
    rewrite (digit_numchar c Hc). simpl.
    apply drop_digits_numchars, number_frac_numchars; assumption.
Qed.

Lemma valid_number_numchars s :
  valid_number s = true -> s <> [] /\ forallb is_numchar s = true.
Proof.
  destruct s as [|c s1]; [discriminate|]. unfold valid_number.
  destruct (Ascii.eqb c "-") eqn:Hc.
  - intros H. apply number_int_numchars in H as [_ H].
    split; [discriminate|]. simpl.
    unfold is_numchar at 1. rewrite Hc, ?orb_true_r. simpl. assumption.
  - intros H. apply number_int_numchars in H as [_ H].
    split; [discriminate | exact H].
Qed.

Lemma span_num_sound s : forall lit rest,
  span_num s = (lit, rest) -> s = lit ++ rest.
Proof.
  induction s as [|c s IH]; simpl; intros lit rest H.
  - inversion H; reflexivity.
  - destruct (is_numchar c).
    + destruct (span_num s) as [a b]. inversion H; subst.
      simpl. f_equal. apply IH. reflexivity.
    + inversion H; reflexivity.
Qed.

Lemma span_num_complete lit rest :
  forallb is_numchar lit = true -> ends_number rest ->
  span_num (lit ++ rest) = (lit, rest).
Proof.
  intros Hl Hr. induction lit as [|c lit IH]; simpl in *.
  - destruct rest as [|c r]; [reflexivity|]. simpl in *. rewrite Hr. reflexivity.
  - apply andb_prop in Hl as [Hc Hl]. rewrite Hc, IH; auto.
Qed.

Lemma ws_ends_number w rest :
  ws w -> ends_number rest -> ends_number (w ++ rest).
Proof.
  destruct w as [|c w]; simpl; [auto|]. unfold ws; simpl.
  intros H _. apply andb_prop in H as [H _]. revert H. ascii_cases c.
Qed.

(** *** The parser and the grammar agree *)

Ltac inv H := inversion H; subst; clear H.

(** Closes an equation between texts from the splittings in the context. *)
Ltac text_eq :=
  repeat match goal with
         | H : skip_ws ?s = _, E : context [skip_ws ?s] |- _ => rewrite H in E
         end;
  subst; repeat (rewrite <- app_assoc; simpl); reflexivity.

Lemma parse_sound n :
  (forall s v rest, parse_value n s = Some (v, rest) ->
     exists pre, s = pre ++ rest /\ value_text pre v) /\
  (forall s vs rest, parse_elements n s = Some (vs, rest) ->
     exists pre, s = pre ++ "]"%char :: rest /\ elements_text pre vs) /\
  (forall s ms rest, parse_members n s = Some (ms, rest) ->
     exists pre, s = pre ++ "}"%char :: rest /\ members_text pre ms).
Proof.
  induction n as [|n (IHv & IHe & IHm)];
    [repeat split; intros; discriminate|].
  repeat split.
  - intros s v rest H. cbn [parse_value] in H.
    destruct s as [|c s1]; [discriminate|].
    destruct (Ascii.eqb c "{") eqn:Hobj.
    { apply Ascii.eqb_eq in Hobj. subst c.
      destruct (skip_ws_split s1) as (w & E & Hw).
      destruct (skip_ws s1) as [|c2 s2] eqn:Es; [discriminate|].
      destruct (Ascii.eqb c2 "}") eqn:Hc2.
      - apply Ascii.eqb_eq in Hc2. subst c2. inv H.
        exists ("{"%char :: w ++ ["}"%char]). split.
        + simpl. rewrite <- app_assoc. reflexivity.
        + constructor. assumption.
      - destruct (parse_members n s1) as [[ms r]|] eqn:Em; [|discriminate].
        inv H. apply IHm in Em as (pre & -> & Hm).
        exists ("{"%char :: pre ++ ["}"%char]). split.
        + simpl. rewrite <- app_assoc. reflexivity.
        + constructor. assumption. }
    destruct (Ascii.eqb c "[") eqn:Harr.
    { apply Ascii.eqb_eq in Harr. subst c.
      destruct (skip_ws_split s1) as (w & E & Hw).
      destruct (skip_ws s1) as [|c2 s2] eqn:Es; [discriminate|].
      destruct (Ascii.eqb c2 "]") eqn:Hc2.
      - apply Ascii.eqb_eq in Hc2. subst c2. inv H.
        exists ("["%char :: w ++ ["]"%char]). split.
        + simpl. rewrite <- app_assoc. reflexivity.
        + constructor. assumption.
      - destruct (parse_elements n s1) as [[vs r]|] eqn:Em; [|discriminate].
        inv H. apply IHe in Em as (pre & -> & Hm).
        exists ("["%char :: pre ++ ["]"%char]). split.
        + simpl. rewrite <- app_assoc. reflexivity.
        + constructor. assumption. }
    destruct (Ascii.eqb c dquote) eqn:Hstr.
    { apply Ascii.eqb_eq in Hstr. subst c.
      destruct (scan_string s1) as [[body r]|] eqn:E; [|discriminate].
      inv H. apply (scan_string_sound (length s1)) in E as [-> Hb]; [|lia].
      exists (dquote :: body ++ [dquote]). split.
      - simpl. rewrite <- app_assoc. reflexivity.
      - constructor. assumption. }
    destruct (has_prefix lit_null (c :: s1)) eqn:Hn.
    { inv H. exists lit_null. split; [|constructor].
      apply (has_prefix_split lit_null). assumption. }
    destruct (has_prefix lit_true (c :: s1)) eqn:Ht.
    { inv H. exists lit_true. split; [|constructor].
      apply (has_prefix_split lit_true). assumption. }
    destruct (has_prefix lit_false (c :: s1)) eqn:Hf.
    { inv H. exists lit_false. split; [|constructor].
      apply (has_prefix_split lit_false). assumption. }
    destruct (span_num (c :: s1)) as [lit r] eqn:E.
    destruct (valid_number lit) eqn:Hv; [|discriminate].
    inv H. exists lit. split; [|constructor; assumption].
    apply span_num_sound. assumption.
  - intros s vs rest H. cbn [parse_elements] in H.
    destruct (skip_ws_split s) as (w1 & E1 & Hw1).
    destruct (parse_value n (skip_ws s)) as [[v r]|] eqn:Ev; [|discriminate].
    apply IHv in Ev as (pre & Epre & Hv).
    destruct (skip_ws_split r) as (w2 & E2 & Hw2).
    destruct (skip_ws r) as [|c r1] eqn:Er; [discriminate|].
    destruct (Ascii.eqb c ",") eqn:Hc.
    + apply Ascii.eqb_eq in Hc. subst c.
      destruct (parse_elements n r1) as [[vs' r']|] eqn:Ee; [|discriminate].
      inv H. apply IHe in Ee as (pre' & -> & He).
      exists (w1 ++ pre ++ w2 ++ ","%char :: pre'). split.
      * text_eq.
      * constructor; assumption.
    + destruct (Ascii.eqb c "]") eqn:Hc'; [|discriminate].
      apply Ascii.eqb_eq in Hc'. subst c. inv H.
      exists (w1 ++ pre ++ w2). split.
      * text_eq.
      * constructor; assumption.
  - intros s ms rest H. cbn [parse_members] in H.
    destruct (skip_ws_split s) as (w1 & E1 & Hw1).
    destruct (skip_ws s) as [|q s1] eqn:Es; [discriminate|].
    destruct (Ascii.eqb q dquote) eqn:Hq; [|discriminate].
    apply Ascii.eqb_eq in Hq. subst q.
    destruct (scan_string s1) as [[k r]|] eqn:Ek; [|discriminate].
    apply (scan_string_sound (length s1)) in Ek as [-> Hk]; [|lia].
    destruct (skip_ws_split r) as (w2 & E2 & Hw2).
    destruct (skip_ws r) as [|c r1] eqn:Er; [discriminate|].
    destruct (Ascii.eqb c ":") eqn:Hc; [|discriminate].
    apply Ascii.eqb_eq in Hc. subst c.
    destruct (skip_ws_split r1) as (w3 & E3 & Hw3).
    destruct (parse_value n (skip_ws r1)) as [[v r2]|] eqn:Ev; [|discriminate].
    apply IHv in Ev as (pre & Epre & Hv).
    destruct (skip_ws_split r2) as (w4 & E4 & Hw4).
    destruct (skip_ws r2) as [|c2 r3] eqn:Er2; [discriminate|].
    destruct (Ascii.eqb c2 ",") eqn:Hc2.
    + apply Ascii.eqb_eq in Hc2. subst c2.
      destruct (parse_members n r3) as [[ms' r']|] eqn:Em; [|discriminate].
      inv H. apply IHm in Em as (pre' & -> & Hm).
      exists (w1 ++ dquote :: k ++ dquote :: w2 ++ ":"%char :: w3 ++ pre ++ w4
                ++ ","%char :: pre').
      split.
      * text_eq.
      * constructor; assumption.
    + destruct (Ascii.eqb c2 "}") eqn:Hc2'; [|discriminate].
      apply Ascii.eqb_eq in Hc2'. subst c2. inv H.
      exists (w1 ++ dquote :: k ++ dquote :: w2 ++ ":"%char :: w3 ++ pre ++ w4).
      split.
      * text_eq.
      * constructor; assumption.
Qed.

Lemma numchar_head c :
  is_numchar c = true ->
  is_ws c = false /\ Ascii.eqb c "]" = false /\ Ascii.eqb c "}" = false /\
  Ascii.eqb c "{" = false /\ Ascii.eqb c "[" = false /\
  Ascii.eqb c dquote = false.
Proof.
  destruct c as [[|] [|] [|] [|] [|] [|] [|] [|]]; vm_compute; intros H;
    try discriminate H; repeat split.
Qed.

Lemma numchar_not_literal c s :
  is_numchar c = true ->
  has_prefix lit_null (c :: s) = false /\
  has_prefix lit_true (c :: s) = false /\
  has_prefix lit_false (c :: s) = false.
Proof.
  destruct c as [[|] [|] [|] [|] [|] [|] [|] [|]]; vm_compute; intros H;
    try discriminate H; repeat split.
Qed.

Lemma value_text_starts s v : value_text s v -> starts_value s.
Proof.
  unfold starts_value.
  destruct 1 as [| | |lit Hlit|body Hb|w Hw|s vs Hs|w Hw|s ms Hs];
    try (eexists _, _; repeat split; reflexivity).
  destruct (valid_number_numchars lit Hlit) as [Hne Hall].
  destruct lit as [|c lit]; [congruence|].
  simpl in Hall. apply andb_prop in Hall as [Hc _].
  destruct (numchar_head c Hc) as (? & ? & ? & _).
  eexists _, _; repeat split; assumption.
Qed.

Lemma skip_ws_value w s x v :
  ws w -> value_text s v -> skip_ws (w ++ s ++ x) = s ++ x.
Proof.
  intros Hw Hv. rewrite skip_ws_app by assumption.
  destruct (value_text_starts s v Hv) as (c & s' & -> & Hc & _).
  simpl. rewrite Hc. reflexivity.
Qed.

Lemma skip_ws_punct w c x :
  ws w -> is_ws c = false -> skip_ws (w ++ c :: x) = c :: x.
Proof.
  intros Hw Hc. rewrite skip_ws_app by assumption. apply skip_ws_head, Hc.
Qed.

Lemma elements_text_starts s vs x :
  elements_text s vs ->
  exists c y, skip_ws (s ++ x) = c :: y /\ Ascii.eqb c "]" = false.
Proof.
  intros H.
  assert (G : exists w1 s1 v y, s ++ x = w1 ++ s1 ++ y /\ ws w1 /\ value_text s1 v).
  { destruct H as [w1 s1 v w2 Hw1 Hv Hw2|w1 s1 v w2 s' vs Hw1 Hv Hw2 Hs].
    - exists w1, s1, v, (w2 ++ x). repeat rewrite <- app_assoc. auto.
    - exists w1, s1, v, (w2 ++ ","%char :: s' ++ x).
      repeat (rewrite <- app_assoc; simpl). auto. }
  destruct G as (w1 & s1 & v & y & -> & Hw1 & Hv).
  rewrite (skip_ws_value w1 s1 y v Hw1 Hv).
  destruct (value_text_starts s1 v Hv) as (c & s' & -> & _ & Hc & _).
  exists c, (s' ++ y). auto.
Qed.

Lemma members_text_starts s ms x :
  members_text s ms ->
  exists y, skip_ws (s ++ x) = dquote :: y.
Proof.
  destruct 1 as [w1 k w2 w3 s1 v w4 Hw1|w1 k w2 w3 s1 v w4 s' ms Hw1];
    rewrite <- app_assoc; rewrite skip_ws_app by assumption;
    simpl; eauto.
Qed.

Lemma parse_value_string n s :
  parse_value (S n) (dquote :: s) =
    match scan_string s with
    | Some (body, rest) => Some (JString body, rest)
    | None => None
    end.
Proof. reflexivity. Qed.

Lemma parse_value_array n s :
  parse_value (S n) ("["%char :: s) =
    match skip_ws s with
    | c2 :: s2 =>
        if Ascii.eqb c2 "]" then Some (JArray [], s2)
        else match parse_elements n s with
             | Some (vs, rest) => Some (JArray vs, rest)
             | None => None
             end
    | [] => None
    end.
Proof. reflexivity. Qed.

Lemma parse_value_object n s :
  parse_value (S n) ("{"%char :: s) =
    match skip_ws s with
    | c2 :: s2 =>
        if Ascii.eqb c2 "}" then Some (JObject [], s2)
        else match parse_members n s with
             | Some (ms, rest) => Some (JObject ms, rest)
             | None => None
             end
    | [] => None
    end.
Proof. reflexivity. Qed.

Lemma ends_number_ws_punct w c x :
  ws w -> is_numchar c = false -> ends_number (w ++ c :: x).
Proof. intros Hw Hc. apply ws_ends_number; [assumption | exact Hc]. Qed.

Lemma parse_complete :
  (forall s v, value_text s v ->
     forall n rest, length s < n -> ends_number rest ->
       parse_value n (s ++ rest) = Some (v, rest)) /\
  (forall s vs, elements_text s vs ->
     forall n rest, length s + 1 < n ->
       parse_elements n (s ++ "]"%char :: rest) = Some (vs, rest)) /\
  (forall s ms, members_text s ms ->
     forall n rest, length s + 1 < n ->
       parse_members n (s ++ "}"%char :: rest) = Some (ms, rest)).
Proof.
  apply json_text_mutind.
  - intros [|n] rest Hn _; [simpl in Hn; lia|]. reflexivity.
  - intros [|n] rest Hn _; [simpl in Hn; lia|]. reflexivity.
  - intros [|n] rest Hn _; [simpl in Hn; lia|]. reflexivity.
  - intros lit Hlit [|n] rest Hn Hrest; [lia|].
    destruct (valid_number_numchars lit Hlit) as [Hne Hall].
    destruct lit as [|c lit]; [congruence|].
    assert (Hc : is_numchar c = true)
      by (simpl in Hall; apply andb_prop in Hall; tauto).
    destruct (numchar_head c Hc) as (_ & _ & _ & H1 & H2 & H3).
    destruct (numchar_not_literal c (lit ++ rest) Hc) as (H4 & H5 & H6).
    cbn [parse_value app]. rewrite H1, H2, H3, H4, H5, H6.
    change (c :: lit ++ rest) with ((c :: lit) ++ rest).
    rewrite span_num_complete by assumption. rewrite Hlit. reflexivity.
  - intros body Hb [|n] rest Hn _; [lia|].
    cbn [app]. rewrite parse_value_string, <- app_assoc. cbn [app].
    rewrite scan_string_complete by assumption. reflexivity.
  - intros w Hw [|n] rest Hn _; [lia|].
    cbn [app]. rewrite parse_value_array, <- app_assoc. cbn [app].
    rewrite skip_ws_punct by (assumption || reflexivity). reflexivity.
  - intros s vs Hs IH [|n] rest Hn _; [lia|].
    cbn [app]. rewrite parse_value_array, <- app_assoc. cbn [app].
    destruct (elements_text_starts s vs ("]"%char :: rest) Hs) as (c & y & -> & ->).
    rewrite IH; [reflexivity|].
    cbn [length] in Hn. rewrite length_app in Hn. simpl in Hn. lia.
  - intros w Hw [|n] rest Hn _; [lia|].
    cbn [app]. rewrite parse_value_object, <- app_assoc. cbn [app].
    rewrite skip_ws_punct by (assumption || reflexivity). reflexivity.
  - intros s ms Hs IH [|n] rest Hn _; [lia|].
    cbn [app]. rewrite parse_value_object, <- app_assoc. cbn [app].
    destruct (members_text_starts s ms ("}"%char :: rest) Hs) as (y & ->).
    change (Ascii.eqb dquote "}") with false. cbv iota.
    rewrite IH; [reflexivity|].
    cbn [length] in Hn. rewrite length_app in Hn. simpl in Hn. lia.
  - intros w1 s v w2 Hw1 Hv IH Hw2 [|n] rest Hn; [lia|].
    repeat rewrite length_app in Hn.
    cbn [parse_elements]. repeat rewrite <- app_assoc.
    rewrite (skip_ws_value w1 s _ v Hw1 Hv).
    rewrite IH; [|lia|apply ends_number_ws_punct; [assumption|reflexivity]].
    rewrite skip_ws_punct by (assumption || reflexivity). reflexivity.
  - intros w1 s v w2 s' vs Hw1 Hv IHv Hw2 Hs IHs [|n] rest Hn; [lia|].
    repeat rewrite length_app in Hn. cbn [length] in Hn.
    cbn [parse_elements]. repeat (rewrite <- app_assoc; cbn [app]).
    rewrite (skip_ws_value w1 s _ v Hw1 Hv).
    rewrite IHv; [|lia|apply ends_number_ws_punct; [assumption|reflexivity]].
    rewrite skip_ws_punct by (assumption || reflexivity).
    change (Ascii.eqb "," ",") with true. cbv iota.
    rewrite IHs; [reflexivity|lia].
  - intros w1 k w2 w3 s v w4 Hw1 Hk Hw2 Hw3 Hv IH Hw4 [|n] rest Hn; [lia|].
    repeat (rewrite length_app in Hn; cbn [length] in Hn).
    cbn [parse_members]. repeat (rewrite <- app_assoc; cbn [app]).
    rewrite skip_ws_punct by (assumption || reflexivity).
    change (Ascii.eqb dquote dquote) with true. cbv iota.
    rewrite scan_string_complete by assumption.
    rewrite skip_ws_punct by (assumption || reflexivity).
    change (Ascii.eqb ":" ":") with true. cbv iota.
    rewrite (skip_ws_value w3 s _ v Hw3 Hv).
    rewrite IH; [|lia|apply ends_number_ws_punct; [assumption|reflexivity]].
    rewrite skip_ws_punct by (assumption || reflexivity). reflexivity.
  - intros w1 k w2 w3 s v w4 s' ms Hw1 Hk Hw2 Hw3 Hv IHv Hw4 Hs IHs [|n] rest Hn;
      [lia|].
    repeat (rewrite length_app in Hn; cbn [length] in Hn).
    cbn [parse_members]. repeat (rewrite <- app_assoc; cbn [app]).
    rewrite skip_ws_punct by (assumption || reflexivity).
    change (Ascii.eqb dquote dquote) with true. cbv iota.
    rewrite scan_string_complete by assumption.
    rewrite skip_ws_punct by (assumption || reflexivity).
    change (Ascii.eqb ":" ":") with true. cbv iota.
    rewrite (skip_ws_value w3 s _ v Hw3 Hv).
    rewrite IHv; [|lia|apply ends_number_ws_punct; [assumption|reflexivity]].
    rewrite skip_ws_punct by (assumption || reflexivity).
    change (Ascii.eqb "," ",") with true. cbv iota.
    rewrite IHs; [reflexivity|lia].
Qed.

(** The parser and the grammar agree. *)
Theorem decode_sound p t : decode p = Some t -> json_text p t.
Proof.
  unfold decode. intros H.
  destruct (skip_ws_split p) as (w1 & E1 & Hw1).
  destruct (parse_value (S (length p)) (skip_ws p)) as [[v rest]|] eqn:E;
    [|discriminate].
  destruct (skip_ws rest) eqn:Er; [|discriminate]. inv H.
  apply parse_sound in E as (pre & Epre & Hv).
  exists w1, pre, rest. repeat split; auto.
  - rewrite Epre in E1. exact E1.
  - apply skip_ws_nil_ws. assumption.
Qed.

Theorem decode_complete p t : json_text p t -> decode p = Some t.
Proof.
  intros (w1 & s & w2 & -> & Hw1 & Hw2 & Hv). unfold decode.
  rewrite (skip_ws_value w1 s w2 t Hw1 Hv).
  destruct parse_complete as (Hc & _ & _).
  rewrite (Hc s t Hv).
  - rewrite skip_ws_ws by assumption. reflexivity.
  - repeat rewrite length_app. lia.
  - rewrite <- (app_nil_r w2). apply ws_ends_number; [assumption | exact I].
Qed.

(** *** Value trees and their encoding *)

(** Induction on value trees, with the hypothesis for every child. *)
Lemma json_ind' (P : json -> Prop) :
  P JNull ->
  (forall b, P (JBool b)) ->
  (forall lit, P (JNumber lit)) ->
  (forall body, P (JString body)) ->
  (forall vs, Forall P vs -> P (JArray vs)) ->
  (forall ms, Forall (fun m => P (snd m)) ms -> P (JObject ms)) ->
  forall t, P t.
Proof.
  intros Hnull Hbool Hnum Hstr Harr Hobj.
  fix IH 1. intros [| b | lit | body | vs | ms].
  - exact Hnull.
  - apply Hbool.
  - apply Hnum.
  - apply Hstr.
  - apply Harr. induction vs as [|v vs IHvs]; constructor; [apply IH | exact IHvs].
  - apply Hobj. induction ms as [|m ms IHms]; constructor; [apply IH | exact IHms].
Qed.

Lemma encode_object ms :
  encode (JObject ms) =
    "{"%char :: join ","%char (map encode_member ms) ++ ["}"%char].
Proof. reflexivity. Qed.

Lemma encode_array vs :
  encode (JArray vs) = "["%char :: join ","%char (map encode vs) ++ ["]"%char].
Proof. reflexivity. Qed.

Lemma body_text_escape_char c s : body_text s -> body_text (escape_char c ++ s).
Proof.
  intros Hs.
  destruct c as [[|] [|] [|] [|] [|] [|] [|] [|]]; cbv;
    repeat first [ apply BT_unicode; [reflexivity | reflexivity | reflexivity | reflexivity |]
                 | apply BT_escape; [reflexivity |]
                 | apply BT_plain; [reflexivity |] ];
    exact Hs.
Qed.

Lemma body_text_escape s : body_text (escape s).
Proof.
  induction s as [|c s IH]; simpl; [constructor|].
  apply body_text_escape_char. exact IH.
Qed.

(** The grammar's rules without white space. *)
Lemma ET_one s v : value_text s v -> elements_text s [v].
Proof.
  intros H. rewrite <- (app_nil_r s).
  apply (ET_last [] s v []); [reflexivity | exact H | reflexivity].
Qed.

Lemma ET_more s v s' vs :
  value_text s v -> elements_text s' vs ->
  elements_text (s ++ ","%char :: s') (v :: vs).
Proof.
  intros H H'.
  apply (ET_cons [] s v [] s' vs); [reflexivity | exact H | reflexivity | exact H'].
Qed.

Lemma MT_one k s v :
  body_text k -> value_text s v ->
  members_text (dquote :: k ++ dquote :: ":"%char :: s) [(k, v)].
Proof.
  intros Hk H. rewrite <- (app_nil_r s).
  apply (MT_last [] k [] [] s v []); try reflexivity; assumption.
Qed.

Lemma MT_more k s v s' ms :
  body_text k -> value_text s v -> members_text s' ms ->
  members_text (dquote :: k ++ dquote :: ":"%char :: s ++ ","%char :: s')
    ((k, v) :: ms).
Proof.
  intros Hk H H'.
  apply (MT_cons [] k [] [] s v [] s' ms); try reflexivity; assumption.
Qed.

Lemma MT_one_encoded m :
  body_text (fst m) -> value_text (encode (snd m)) (snd m) ->
  members_text (encode_member m) [m].
Proof. destruct m as [k v]. apply MT_one. Qed.

Lemma MT_more_encoded m s' ms :
  body_text (fst m) -> value_text (encode (snd m)) (snd m) ->
  members_text s' ms ->
  members_text (encode_member m ++ ","%char :: s') (m :: ms).
Proof.
  destruct m as [k v]. intros Hk Hv Hs. unfold encode_member. cbn [fst snd app].
  rewrite <- app_assoc. cbn [app]. apply MT_more; assumption.
Qed.

Lemma join_cons sep p q ps :
  join sep (p :: q :: ps) = p ++ sep :: join sep (q :: ps).
Proof. reflexivity. Qed.

Lemma value_text_nonempty_elements s vs : elements_text s vs -> vs <> [].
Proof. destruct 1; discriminate. Qed.

End Json.

Import Json.

(** ** The redaction engine (package [analytics])

    The tests under [analytics] call [SanitizeValuesByKey] and
    [SanitizeUsername] and read the package's [sensitiveFieldNames] and
    [sanitize_replacement_string]; none of them is in the sources.  The two
    functions are modelled here from their specification, with the Filter
    Set and the Replacement Token as arguments.  [Test_SanitizeValuesByKey]
    expects of the first what the specified walk does not give (the strings
    of an array redacted, a number left a number), so of the walk only what
    the tests do not bear on is stated. *)

Module Analytics.

Inductive Error := DecodeError | EncodeError.

(** *** Structural Redactor *)

(** Modelled from the spec: the key test of the Structural Redactor, which
    is missing from the sources.  A key matches when some Filter Set entry
    is a substring of its name, both in lower case.  The name is the key as
    written in the JSON text, with its escapes undecoded, and case is folded
    on the ASCII letters. *)
Definition key_matches (filter : list text) (key : text) : bool :=
  existsb (fun fragment => contains (lower fragment) (lower key)) filter.

(** Modelled from the spec: the walk of the Structural Redactor, which is
    missing from the sources.  Every object is visited; the value of a
    matching key, whatever its type, becomes the Replacement Token as a JSON
    string; the value of any other key is sanitized in turn; arrays are
    walked element by element; scalars stay. *)
Fixpoint sanitize (filter : list text) (token : text) (t : json) : json :=
  match t with
  | JObject ms =>
      JObject (map (fun m =>
                      if key_matches filter (fst m)
                      then (fst m, JString (escape token))
                      else (fst m, sanitize filter token (snd m))) ms)
  | JArray vs => JArray (map (sanitize filter token) vs)
  | _ => t
  end.

(** What [sanitize] does to one member of an object. *)
Definition sanitize_member (filter : list text) (token : text) (m : text * json)
  : text * json :=
  if key_matches filter (fst m)
  then (fst m, JString (escape token))
  else (fst m, sanitize filter token (snd m)).

(** Modelled from the spec: [SanitizeValuesByKey], the spec's [Redact],
    which is missing from the sources.  The payload is decoded, walked and
    encoded again; a payload that is not valid JSON gives [DecodeError] and
    no output. *)
Definition SanitizeValuesByKey (keysToFilter : list text)
  (replacementValue : text) (content : text) : text * option Error :=
  match decode content with
  | None => ([], Some DecodeError)
  | Some t => (encode (sanitize keysToFilter replacementValue t), None)
  end.

(** *** Literal Redactor *)

(** Modelled from the spec: the path with its separators swapped to the
    other convention. *)
Definition swap_separators (path : text) : text :=
  map (fun a => if Ascii.eqb a backslash then "/"%char
                else if Ascii.eqb a "/" then backslash else a) path.

(** Modelled from the spec: the user name without its domain prefix, that
    is what follows the last backslash. *)
Fixpoint bare_username (raw : text) : text :=
  match raw with
  | [] => []
  | a :: rest =>
      if occurs backslash rest then bare_username rest
      else if Ascii.eqb a backslash then rest else raw
  end.

(** Modelled from the spec: the literal targets in the order they are
    scanned for, most specific first: the user name as given when it has a
    domain prefix, the home directory as given and with its separators
    swapped, and last the bare user name, the shorter candidate that the
    others may contain.  Without a domain prefix the user name as given is
    the bare user name.  The spec names no other form of the targets, so a
    home directory written with doubled backslashes, as in a JSON text, is
    not among them. *)
Definition candidates (rawUserName homeDir : text) : list text :=
  (if occurs backslash rawUserName then [rawUserName] else [])
    ++ [homeDir; swap_separators homeDir; bare_username rawUserName].


(** One scan: the text after it, and the occurrences replaced so far. *)
Definition redact_step (token : text) (st : text * nat) (cand : text)
  : text * nat :=
  (replace_all cand token (fst st), snd st + occurrences cand (fst st)).

Definition redact_all (token : text) (cands : list text) (st : text * nat)
  : text * nat :=
  fold_left (redact_step token) cands st.

(** The sanitized text together with the number of replacements made. *)
Definition redact_identity (rawUserName homeDir token content : text)
  : text * nat :=
  redact_all token (candidates rawUserName homeDir) (content, 0).

(** Modelled from the spec: [SanitizeUsername], the spec's [RedactIdentity],
    which is missing from the sources.  The payload is text, not parsed;
    each candidate is scanned for in turn, left to right, and every
    occurrence found is replaced by the token.  A byte sequence is always a
    text here, so no error arises. *)
Definition SanitizeUsername (rawUserName homeDir replacement content : text)
  : text * option Error :=
  (fst (redact_identity rawUserName homeDir replacement content), None).

(** *** Test data *)

Definition member (k : string) (v : json) : text * json := (bytes k, v).

Definition str (s : string) : json := JString (bytes s).

(** The payload of the spec's first scenario. *)
Definition scenario_input : text :=
  jtext "{'password':'#er+aVnqOjnyTtzn-snyk', 'Other':'public'}".

(** The payload of [Test_SanitizeUsername] for a home directory and a user
    name as they stand in the JSON text: [json.Marshal(inputStruct)]. *)
Definition username_input (homeDir rawUserName : string) : text :=
  encode
    (JObject
       [member "ErrorLog"
          (JString (bytes "Can't execute " ++ bytes homeDir
                      ++ bytes "\\path/to/something/file.exe for whatever reason."));
        member "Other"
          (JString (bytes "some other value where " ++ bytes rawUserName
                      ++ bytes " is contained"))]).

(** One case of [Test_SanitizeUsername] on the model: the tokens in the
    output and the occurrences left of the user name as given, of the bare
    user name and of the home directory.  The last two arguments are the
    user name and the home directory as [json.Marshal] writes them. *)
Definition run_username_test
  (userName domainPrefix homeDir userNameInJson homeDirInJson : string)
  : list nat :=
  let output :=
    fst (SanitizeUsername (bytes domainPrefix ++ bytes userName) (bytes homeDir)
           (bytes "REDACTED") (username_input homeDirInJson userNameInJson)) in
  [count (bytes "REDACTED") output;
   count (bytes domainPrefix ++ bytes userName) output;
   count (bytes userName) output;
   count (bytes homeDir) output].

(** The four assertions [Test_SanitizeUsername] makes on an output of the
    function under test: two replacements, and no occurrence left of the raw
    user name, of the user name without its domain, and of the home
    directory. *)
Definition username_assertions
  (replacement rawUserName simpleUsername homeDir output : text) : bool :=
  (count replacement output =? 2)
  && (count rawUserName output =? 0)
  && (count simpleUsername output =? 0)
  && (count homeDir output =? 0).

(** *** Lemmas on the Structural Redactor *)

Lemma sanitize_object filter token ms :
  sanitize filter token (JObject ms) =
    JObject (map (sanitize_member filter token) ms).
Proof. reflexivity. Qed.

Lemma sanitize_array filter token vs :
  sanitize filter token (JArray vs) = JArray (map (sanitize filter token) vs).
Proof. reflexivity. Qed.

Lemma sanitize_member_text filter token k v :
  body_text k ->
  value_text (encode (sanitize filter token v)) (sanitize filter token v) ->
  body_text (fst (sanitize_member filter token (k, v))) /\
  value_text (encode (snd (sanitize_member filter token (k, v))))
    (snd (sanitize_member filter token (k, v))).
Proof.
  unfold sanitize_member. cbn [fst snd].
  intros Hk Hv. destruct (key_matches filter k); cbn [fst snd].
  - split; [assumption|]. constructor. apply body_text_escape.
  - split; assumption.
Qed.

(** The sanitized tree of a valid text is the tree of its own encoding. *)
Lemma sanitize_text filter token :
  (forall s v, value_text s v ->
     value_text (encode (sanitize filter token v)) (sanitize filter token v)) /\
  (forall s vs, elements_text s vs ->
     elements_text (join ","%char (map encode (map (sanitize filter token) vs)))
       (map (sanitize filter token) vs)) /\
  (forall s ms, members_text s ms ->
     members_text
       (join ","%char (map encode_member (map (sanitize_member filter token) ms)))
       (map (sanitize_member filter token) ms)).
Proof.
  apply json_text_mutind.
  - constructor.
  - constructor.
  - constructor.
  - intros lit Hlit. constructor. assumption.
  - intros body Hb. constructor. assumption.
  - intros w _. apply (VT_array_empty []). reflexivity.
  - intros s vs _ IH. rewrite sanitize_array, encode_array.
    constructor. exact IH.
  - intros w _. apply (VT_object_empty []). reflexivity.
  - intros s ms _ IH. rewrite sanitize_object, encode_object.
    constructor. exact IH.
  - intros w1 s v w2 _ _ IH _. cbn [map join]. apply ET_one. exact IH.
  - intros w1 s v w2 s' vs _ _ IHv _ Hs IHs. cbn [map].
    pose proof (value_text_nonempty_elements _ _ Hs) as Hne.
    destruct vs as [|v' vs]; [congruence|].
    cbn [map] in *. rewrite join_cons. apply ET_more; assumption.
  - intros w1 k w2 w3 s v w4 _ Hk _ _ _ IH _. cbn [map join].
    apply MT_one_encoded; apply sanitize_member_text; assumption.
  - intros w1 k w2 w3 s v w4 s' ms _ Hk _ _ _ IHv _ Hs IHs. cbn [map].
    assert (Hne : ms <> []) by (destruct Hs; discriminate).
    destruct ms as [|m' ms]; [congruence|].
    cbn [map] in *. rewrite join_cons.
    apply MT_more_encoded; try apply sanitize_member_text; assumption.
Qed.

(** The output of the redactor decodes to the sanitized tree. *)
Lemma sanitize_decodes filter token p t :
  decode p = Some t ->
  decode (encode (sanitize filter token t)) = Some (sanitize filter token t).
Proof.
  intros H. apply decode_sound in H as (w1 & s & w2 & _ & _ & _ & Hv).
  apply decode_complete.
  exists [], (encode (sanitize filter token t)), [].
  rewrite app_nil_r. repeat split.
  destruct (sanitize_text filter token) as (Hs & _ & _). eapply Hs; eauto.
Qed.

Lemma sanitize_member_idempotent filter token m :
  sanitize filter token (sanitize filter token (snd m)) =
    sanitize filter token (snd m) ->
  sanitize_member filter token (sanitize_member filter token m) =
    sanitize_member filter token m.
Proof.
  intros IH. unfold sanitize_member.
  destruct (key_matches filter (fst m)) eqn:E; cbn [fst snd]; rewrite E.
  - reflexivity.
  - rewrite IH. reflexivity.
Qed.

Lemma sanitize_idempotent filter token t :
  sanitize filter token (sanitize filter token t) = sanitize filter token t.
Proof.
  induction t as [| b | lit | body | vs IH | ms IH] using json_ind';
    try reflexivity.
  - rewrite !sanitize_array. f_equal. rewrite map_map.
    apply map_ext_Forall. exact IH.
  - rewrite !sanitize_object. f_equal. rewrite map_map.
    apply map_ext_Forall. eapply Forall_impl; [|exact IH].
    intros m Hm. apply sanitize_member_idempotent, Hm.
Qed.

(** *** Lemmas on the Literal Redactor *)





(** *** The claims on the Structural Redactor *)

Lemma SanitizeValuesByKey_decoded filter token content t :
  decode content = Some t ->
  SanitizeValuesByKey filter token content =
    (encode (sanitize filter token t), None).
Proof. unfold SanitizeValuesByKey. intros ->. reflexivity. Qed.

Lemma scenario_output :
  SanitizeValuesByKey [bytes "password"] (bytes "***") scenario_input =
    (jtext "{'password':'***','Other':'public'}", None).
Proof. vm_compute. reflexivity. Qed.

(** C9: sanitizing the output again, with the same Filter Set and token,
    gives the output back. *)
Theorem SanitizeValuesByKey_idempotent filter token content out :
  SanitizeValuesByKey filter token content = (out, None) ->
  SanitizeValuesByKey filter token out = (out, None).
Proof.
  unfold SanitizeValuesByKey at 1.
  destruct (decode content) as [t|] eqn:E; [|discriminate].
  intros H. inversion H; subst.
  rewrite (SanitizeValuesByKey_decoded filter token _ (sanitize filter token t)).
  - rewrite sanitize_idempotent. reflexivity.
  - eapply sanitize_decodes; eauto.
Qed.

Lemma SanitizeValuesByKey_idempotent_witness :
  SanitizeValuesByKey [bytes "password"] (bytes "***")
    (jtext "{'password':'***','Other':'public'}") =
    (jtext "{'password':'***','Other':'public'}", None).
Proof.
  apply (SanitizeValuesByKey_idempotent [bytes "password"] (bytes "***")
           scenario_input).
  vm_compute. reflexivity.
Defined.

(** *** The claims on the Literal Redactor *)




(** The three fixed cases of [Test_SanitizeUsername], which asserts
    [2; 0; 0; 0] in each.  In the third the candidates occur once, as the
    bare user name: the home directory stands in the JSON text with its
    backslashes doubled. *)
Fact Test_SanitizeUsername_on_the_model :
  run_username_test "some.user" EmptyString "/Users/some.user/some/Path"
    "some.user" "/Users/some.user/some/Path" = [2; 0; 0; 0] /\
  run_username_test "some.user" "domainName\" "C:\Users\some.user\AppData\Local"
    "domainName\\some.user" "C:\\Users\\some.user\\AppData\\Local"
    = [2; 0; 0; 0] /\
  run_username_test "someuser" "domainName\" "C:\Users\some.user\AppData/Local"
    "domainName\\someuser" "C:\\Users\\some.user\\AppData/Local"
    = [1; 0; 0; 0].
Proof. vm_compute. repeat split. Qed.

(** The scenario with both path variants in one text: the home directory as
    given goes as a whole, the variant with mixed separators loses the
    bare user name, and no occurrence of the user name is left. *)
Fact SanitizeUsername_scenario :
  let output :=
    fst (SanitizeUsername (bytes "domainName\some.user")
           (bytes "C:\Users\some.user\AppData\Local") (bytes "REDACTED")
           (bytes "at C:\Users\some.user\AppData\Local and C:\Users\some.user\AppData/Local")) in
  output = bytes "at REDACTED and C:\Users\REDACTED\AppData/Local" /\
  count (bytes "some.user") output = 0.
Proof. vm_compute. repeat split. Qed.

(** The home directory goes as a whole although it holds the user name: the
    first case of the test, in plain text. *)
Fact SanitizeUsername_home_first :
  SanitizeUsername (bytes "some.user") (bytes "/Users/some.user/some/Path")
    (bytes "REDACTED") (bytes "cd /Users/some.user/some/Path as some.user") =
    (bytes "cd REDACTED as REDACTED", None).
Proof. vm_compute. reflexivity. Qed.

(** Each way in which the token can fail to be apart from a target leaves
    the target in the output of some payload: the target holds the token,
    the token ends as the target begins, or the token begins as the target
    ends.  (The token holding the target is the case of the test's token
    below.) *)
Fact SanitizeUsername_overlap_leaves_residue :
  (apart (bytes "t") (bytes "atb") = false /\
   SanitizeUsername (bytes "atb") (bytes "/h") (bytes "t") (bytes "aatbb") =
     (bytes "atb", None)) /\
  (apart (bytes "xa") (bytes "ab") = false /\
   SanitizeUsername (bytes "ab") (bytes "/h") (bytes "xa") (bytes "abb") =
     (bytes "xab", None)) /\
  (apart (bytes "bx") (bytes "ab") = false /\
   SanitizeUsername (bytes "ab") (bytes "/h") (bytes "bx") (bytes "aab") =
     (bytes "abx", None)).
Proof. vm_compute. repeat split. Qed.




(** What the function returns on that text: four tokens, one for each. *)
Fact SanitizeUsername_four_targets :
  SanitizeUsername (bytes "domainName\some.user")
    (bytes "C:\Users\some.user\AppData\Local") (bytes "REDACTED")
    (bytes "domainName\some.user (some.user) in C:\Users\some.user\AppData\Local or C:/Users/some.user/AppData/Local")
    = (bytes "REDACTED (REDACTED) in REDACTED or REDACTED", None).
Proof. vm_compute. reflexivity. Qed.

(** *** The assertions of [Test_SanitizeUsername] *)

(** X9.  Of the assertions of [Test_SanitizeUsername], the one on the raw
    user name follows from the one on the user name without its domain, for
    every output: the raw name is the domain prefix followed by the user
    name, and a run that does not occur rules out every run containing it.
    When the home directory contains the user name, as in the first two
    cases, the assertion on the home directory follows as well. *)
Theorem Test_SanitizeUsername_assertions
  replacement domainPrefix userName homeDir output :
  username_assertions replacement (domainPrefix ++ userName) userName homeDir output =
    (count replacement output =? 2)
    && (count userName output =? 0)
    && (count homeDir output =? 0)
  /\ (contains userName homeDir = true ->
      username_assertions replacement (domainPrefix ++ userName) userName homeDir output =
        (count replacement output =? 2) && (count userName output =? 0)).
Proof.
  unfold username_assertions.
  destruct (count userName output =? 0) eqn:E.
  - apply Nat.eqb_eq in E.
    rewrite (count_zero_mono userName (domainPrefix ++ userName) output
               (contains_app_r _ _ _ (contains_refl userName)) E).
    cbn [Nat.eqb]. rewrite !andb_true_r. split; [reflexivity|].
    intros H. rewrite (count_zero_mono userName homeDir output H E).
    cbn [Nat.eqb]. rewrite andb_true_r. reflexivity.
  - rewrite !andb_false_r. cbn [andb]. split; reflexivity.
Qed.

End Analytics.
